(** * strip_comments.py: comment strippers for HTML, CSS and JS

    A shallow embedding of [scripts/strip_comments.py] and the properties
    of its three strippers, of the per-line JS scanner and of the file
    walker.

    Python strings are sequences of Unicode code points; a code point is
    modelled as an [N] and a string as a list of them.  The library
    functions the script calls ([re.sub] with the two delimiter patterns,
    [str.splitlines], [str.rstrip], [str.endswith], [str.join],
    [str.lower]) are modelled by their documented behaviour on such
    lists. *)

From Stdlib Require Import String Ascii.
From Stdlib Require Import List NArith Bool Arith Lia.
Import ListNotations.

Set Implicit Arguments.

(** ** Strings as lists of code points *)

Definition char := N.
Definition str := list char.

Definition lit (s : string) : str :=
  List.map N_of_ascii (list_ascii_of_string s).

Module Ch.
Definition LF : char := 10%N.
Definition CR : char := 13%N.
Definition backslash : char := 92%N.
Definition squote : char := 39%N.
Definition dquote : char := 34%N.
Definition backtick : char := 96%N.
Definition slash : char := 47%N.
End Ch.

Fixpoint str_eqb (a b : str) : bool :=
  match a, b with
  | [], [] => true
  | x :: a', y :: b' => N.eqb x y && str_eqb a' b'
  | _, _ => false
  end.

(** [s.startswith(p)] *)
Fixpoint startswith (s p : str) {struct p} : bool :=
  match p, s with
  | [], _ => true
  | x :: p', y :: s' => N.eqb x y && startswith s' p'
  | _ :: _, [] => false
  end.

(** [s.endswith(p)] *)
Definition endswith (s p : str) : bool :=
  startswith (rev s) (rev p).

(** [p in s] *)
Fixpoint contains (s p : str) : bool :=
  startswith s p ||
  match s with
  | [] => false
  | _ :: s' => contains s' p
  end.

(** [sep.join(ls)] *)
Fixpoint join (sep : str) (ls : list str) : str :=
  match ls with
  | [] => []
  | l :: ls' =>
    match ls' with
    | [] => l
    | _ :: _ => l ++ sep ++ join sep ls'
    end
  end.

(** The code points [str.splitlines] treats as line boundaries: LF, VT,
    FF, CR, FS, GS, RS, NEL, LS and PS.  A CR directly followed by LF
    forms one boundary with it. *)
Definition is_linebreak (c : char) : bool :=
  match c with
  | 10 | 11 | 12 | 13 | 28 | 29 | 30 | 133 | 8232 | 8233 => true
  | _ => false
  end%N.

(** [s.splitlines()]: the lines of [s] without their boundaries; a
    boundary at the very end of [s] terminates the last line and opens
    no further one. *)
Fixpoint splitlines (s : str) : list str :=
  match s with
  | [] => []
  | c :: t =>
    if is_linebreak c then
      if N.eqb c Ch.CR && startswith t [Ch.LF] then splitlines t
      else [] :: splitlines t
    else
      match splitlines t with
      | [] => [[c]]
      | l :: ls => (c :: l) :: ls
      end
  end.

(** The code points for which [str.isspace] holds, which are those
    [str.rstrip()] removes. *)
Definition isspace (c : char) : bool :=
  ((9 <=? c) && (c <=? 13) || (28 <=? c) && (c <=? 32) ||
   (c =? 133) || (c =? 160) || (c =? 5760) ||
   (8192 <=? c) && (c <=? 8202) || (c =? 8232) || (c =? 8233) ||
   (c =? 8239) || (c =? 8287) || (c =? 12288))%N.

Fixpoint lstrip (s : str) : str :=
  match s with
  | [] => []
  | c :: t => if isspace c then lstrip t else s
  end.

(** [s.rstrip()] *)
Definition rstrip (s : str) : str := rev (lstrip (rev s)).

(** ** [re.sub(r"OPEN.*?CLOSE", "", content, flags=re.S)]

    With [re.S] the dot matches every code point, so a match is an
    occurrence of the opening delimiter, the shortest run of anything,
    and the closing delimiter.  Substitution goes left to right over
    non-overlapping matches. *)

(** The text after the first occurrence of [p] in [s]. *)
Fixpoint find_after (p s : str) : option str :=
  if startswith s p then Some (skipn (length p) s)
  else match s with
       | [] => None
       | _ :: t => find_after p t
       end.

Section ReSub.
Variables op cl : str.

Fixpoint re_sub_fuel (fuel : nat) (s : str) : str :=
  match fuel with
  | O => s
  | S fuel' =>
    match s with
    | [] => []
    | c :: t =>
      if startswith s op then
        match find_after cl (skipn (length op) s) with
        | Some rest => re_sub_fuel fuel' rest
        | None => c :: re_sub_fuel fuel' t
        end
      else c :: re_sub_fuel fuel' t
    end
  end.

Definition re_sub (s : str) : str := re_sub_fuel (length s) s.
End ReSub.

Definition html_open := lit "<!--".
Definition html_close := lit "-->".
Definition block_open := lit "/*".
Definition block_close := lit "*/".

(** ** The strippers *)

Definition strip_html (content : str) : str :=
  re_sub html_open html_close content.

Definition strip_css (content : str) : str :=
  re_sub block_open block_close content.

(** The state of one line scan.  The cursor [i] of the source is the
    split of the line into the characters already consumed and the
    characters still to come: [scan_char] receives [line[i]] and, when
    [i + 1 < n], [line[i+1]]. *)
Record scan_state := {
  in_sq : bool;
  in_dq : bool;
  in_bt : bool;
  escaped : bool;
  result_chars : str
}.

Definition init_state : scan_state :=
  {| in_sq := false; in_dq := false; in_bt := false;
     escaped := false; result_chars := [] |}.

Inductive iteration :=
| Continue (st : scan_state)
| Break.

Definition next_is (next : option char) (c : char) : bool :=
  match next with
  | Some d => N.eqb d c
  | None => false
  end.

Definition no_string (st : scan_state) : bool :=
  negb (in_sq st) && negb (in_dq st) && negb (in_bt st).

(** [result_chars.append(ch); escaped = False] *)
Definition copy (st : scan_state) (ch : char) : scan_state :=
  {| in_sq := in_sq st; in_dq := in_dq st; in_bt := in_bt st;
     escaped := false; result_chars := result_chars st ++ [ch] |}.

(** One iteration of the [while i < n] loop. *)
Definition scan_char (st : scan_state) (ch : char) (next : option char)
  : iteration :=
  if N.eqb ch Ch.backslash && negb (escaped st) then
    Continue {| in_sq := in_sq st; in_dq := in_dq st; in_bt := in_bt st;
                escaped := true; result_chars := result_chars st ++ [ch] |}
  else if N.eqb ch Ch.squote && negb (escaped st)
          && negb (in_dq st) && negb (in_bt st) then
    Continue {| in_sq := negb (in_sq st); in_dq := in_dq st;
                in_bt := in_bt st;
                escaped := false; result_chars := result_chars st ++ [ch] |}
  else if N.eqb ch Ch.dquote && negb (escaped st)
          && negb (in_sq st) && negb (in_bt st) then
    Continue {| in_sq := in_sq st; in_dq := negb (in_dq st);
                in_bt := in_bt st;
                escaped := false; result_chars := result_chars st ++ [ch] |}
  else if N.eqb ch Ch.backtick && negb (escaped st)
          && negb (in_sq st) && negb (in_dq st) then
    Continue {| in_sq := in_sq st; in_dq := in_dq st;
                in_bt := negb (in_bt st);
                escaped := false; result_chars := result_chars st ++ [ch] |}
  else if N.eqb ch Ch.slash && next_is next Ch.slash && no_string st then
    let prev := rstrip (result_chars st) in
    if negb (endswith prev (lit "http:"))
       && negb (endswith prev (lit "https:"))
    then Break
    else Continue (copy st ch)
  else Continue (copy st ch).

(** The loop from a given state over the characters still to come. *)
Fixpoint scan_loop (st : scan_state) (rest : str) : scan_state :=
  match rest with
  | [] => st
  | ch :: tl =>
    match scan_char st ch (hd_error tl) with
    | Break => st
    | Continue st' => scan_loop st' tl
    end
  end.

(** The states at the top of the loop, one per cursor position reached. *)
Fixpoint scan_trace (st : scan_state) (rest : str) : list scan_state :=
  st ::
  match rest with
  | [] => []
  | ch :: tl =>
    match scan_char st ch (hd_error tl) with
    | Break => []
    | Continue st' => scan_trace st' tl
    end
  end.

(** The body of [for line in content.splitlines()]: the text appended
    to [out_lines]. *)
Definition scan_line (line : str) : str :=
  result_chars (scan_loop init_state line).

Definition strip_js (content : str) : str :=
  let content := re_sub block_open block_close content in
  join [Ch.LF] (List.map scan_line (splitlines content)).

(** ** The file walker

    A path carries the two things the script asks of it: its name, under
    which the file system knows it, and its [suffix].  A node of the
    file system is a directory or a regular file; a regular file has the
    text [read_text(encoding='utf-8')] returns ([None] when the call
    raises, as on content that is not UTF-8) and may or may not accept a
    write.  The world also records what was written and printed.
    Every name has a node of its own (no links between names), and
    printing is taken to succeed. *)

Record Path := {
  path_name : str;
  suffix : str
}.

Inductive node :=
| Directory
| RegularFile (text : option str) (writable : bool).

Definition filesystem := str -> option node.

Inductive event :=
| Wrote (p : Path) (text : str)
| PrintedStripped (p : Path)
| PrintedSummary (touched changed : nat).

Record world := {
  disk : filesystem;
  log : list event
}.

Inductive outcome (A : Type) :=
| Returned (a : A)
| Raised.
Arguments Raised {A}.

Definition read_text (w : world) (p : Path) : outcome str :=
  match disk w (path_name p) with
  | Some (RegularFile (Some t) _) => Returned t
  | _ => Raised
  end.

Definition update (fs : filesystem) (k : str) (n : node) : filesystem :=
  fun k' => if str_eqb k' k then Some n else fs k'.

(** [path.write_text(text, encoding='utf-8')] replaces the text of a
    writable regular file and raises otherwise; [process_file] writes
    only a path it has just read. *)
Definition write_text (w : world) (p : Path) (t : str) : outcome world :=
  match disk w (path_name p) with
  | Some (RegularFile _ true) =>
    Returned {| disk := update (disk w) (path_name p)
                               (RegularFile (Some t) true);
                log := log w ++ [Wrote p t] |}
  | _ => Raised
  end.

Definition is_file (w : world) (p : Path) : bool :=
  match disk w (path_name p) with
  | Some (RegularFile _ _) => true
  | _ => false
  end.

Definition print (e : event) (w : world) : world :=
  {| disk := disk w; log := log w ++ [e] |}.

(** [str.lower()] on the ASCII letters.  No code point outside ASCII
    lower-cases to a letter of the four suffixes the script compares
    with, so the comparisons come out as in Python. *)
Definition lower_char (c : char) : char :=
  if ((65 <=? c) && (c <=? 90))%N then (c + 32)%N else c.

Definition lower (s : str) : str := List.map lower_char s.

(** The [if]/[elif] chain of [process_file]: the stripped text, or
    [None] on the final [else]. *)
Definition dispatch (suffix : str) (text : str) : option str :=
  if str_eqb suffix (lit ".html") || str_eqb suffix (lit ".htm") then
    Some (strip_html text)
  else if str_eqb suffix (lit ".css") then
    Some (strip_css text)
  else if str_eqb suffix (lit ".js") then
    Some (strip_js text)
  else None.

Definition process_file (path : Path) (w : world) : outcome (bool * world) :=
  match read_text w path with
  | Raised => Returned (false, w)
  | Returned text =>
    let orig := text in
    match dispatch (lower (suffix path)) text with
    | None => Returned (false, w)
    | Some text =>
      if negb (str_eqb text orig) then
        match write_text w path text with
        | Raised => Raised
        | Returned w' => Returned (true, w')
        end
      else Returned (false, w)
    end
  end.

Definition exts : list str :=
  [lit ".html"; lit ".htm"; lit ".css"; lit ".js"].

(** The [for f in files] loop of [main]. *)
Fixpoint main_loop (files : list Path) (changed touched : nat) (w : world)
  : outcome (nat * nat * world) :=
  match files with
  | [] => Returned (changed, touched, w)
  | f :: files' =>
    if is_file w f && existsb (str_eqb (lower (suffix f))) exts then
      let touched := touched + 1 in
      match process_file f w with
      | Raised => Raised
      | Returned (ok, w') =>
        if ok then
          main_loop files' (changed + 1) touched (print (PrintedStripped f) w')
        else main_loop files' changed touched w'
      end
    else main_loop files' changed touched w
  end.

(** [main], given the listing [list(root.rglob('*'))]. *)
Definition main (files : list Path) (w : world) : outcome world :=
  match main_loop files 0 0 w with
  | Raised => Raised
  | Returned (changed, touched, w') =>
    Returned (print (PrintedSummary touched changed) w')
  end.

(** ** Predicates and measures used in the statements *)

(** The text holds a comment: an opening delimiter with a closing
    delimiter somewhere after it. *)
Definition has_comment (op cl s : str) : bool :=
  match find_after op s with
  | Some rest => contains rest cl
  | None => false
  end.

Definition no_break (l : str) : Prop :=
  Forall (fun c => is_linebreak c = false) l.

(** The text ends with a line boundary. *)
Fixpoint ends_with_break (s : str) : bool :=
  match s with
  | [] => false
  | c :: t =>
    match t with
    | [] => is_linebreak c
    | _ :: _ => ends_with_break t
    end
  end.

(** The length of the lines, each counted with one terminator. *)
Fixpoint total (ls : list str) : nat :=
  match ls with
  | [] => 0
  | l :: ls' => S (length l) + total ls'
  end.

Definition at_most_one (st : scan_state) : Prop :=
  in_sq st && in_dq st || in_sq st && in_bt st || in_dq st && in_bt st
  = false.

Definition same_strings (st st' : scan_state) : Prop :=
  in_sq st' = in_sq st /\ in_dq st' = in_dq st /\ in_bt st' = in_bt st.

Definition is_quote (c : char) : bool :=
  N.eqb c Ch.squote || N.eqb c Ch.dquote || N.eqb c Ch.backtick.

(** The number of backslashes a text ends with. *)
Fixpoint leading_backslashes (s : str) : nat :=
  match s with
  | [] => 0
  | c :: t => if N.eqb c Ch.backslash then S (leading_backslashes t) else 0
  end.

Definition trailing_backslashes (s : str) : nat :=
  leading_backslashes (rev s).

(** What an unescaped quote does: each flag flips exactly when the
    character is its own quote and both other flags are off. *)
Definition quote_step (st : scan_state) (ch : char) (st' : scan_state)
  : Prop :=
  in_sq st' =
  xorb (in_sq st) (N.eqb ch Ch.squote && negb (in_dq st) && negb (in_bt st))
  /\
  in_dq st' =
  xorb (in_dq st) (N.eqb ch Ch.dquote && negb (in_sq st) && negb (in_bt st))
  /\
  in_bt st' =
  xorb (in_bt st) (N.eqb ch Ch.backtick && negb (in_sq st) && negb (in_dq st)).

(** The string flag a quote character opens and closes. *)
Definition in_string_of (q : char) (st : scan_state) : bool :=
  if N.eqb q Ch.squote then in_sq st
  else if N.eqb q Ch.dquote then in_dq st
  else in_bt st.

Definition not_quote (c : char) : bool := negb (is_quote c).

Definition not_char (x c : char) : bool := negb (N.eqb c x).

(** What the walker asks of a node: whether it is there, whether it is
    a regular file, and whether that file accepts a write. *)
Definition shape (n : option node) : option (option bool) :=
  match n with
  | None => None
  | Some Directory => Some None
  | Some (RegularFile _ b) => Some (Some b)
  end.

(** The condition under which [main] hands a listed path to
    [process_file]. *)
Definition recognized (w : world) (f : Path) : bool :=
  is_file w f && existsb (str_eqb (lower (suffix f))) exts.

Definition is_wrote (e : event) : bool :=
  match e with
  | Wrote _ _ => true
  | _ => false
  end.

Definition is_stripped (e : event) : bool :=
  match e with
  | PrintedStripped _ => true
  | _ => false
  end.

Definition is_summary (e : event) : bool :=
  match e with
  | PrintedSummary _ _ => true
  | _ => false
  end.

(** The text copied so far ends, trailing whitespace apart, with
    [http:] or [https:]. *)
Definition after_scheme (s : str) : Prop :=
  exists pre scheme ws,
    (scheme = lit "http:" \/ scheme = lit "https:") /\
    s = pre ++ scheme ++ ws /\ forallb isspace ws = true.

(** ** Concrete texts *)

Definition nl : str := [Ch.LF].

Definition js_example_in : str :=
  lit "let x = 1; // comment" ++ nl ++
  lit "let y = '// not a comment';" ++ nl ++
  lit "/* block" ++ nl ++ lit " comment */" ++ nl ++
  lit "let z = `template // also kept`;".

Definition js_example_out : str :=
  lit "let x = 1; " ++ nl ++
  lit "let y = '// not a comment';" ++ nl ++
  nl ++
  lit "let z = `template // also kept`;".

Definition url_line : str := lit "let url = http://example.com".

(** The scheme separated from [//] by a space, and by a tab. *)
Definition spaced_url_line : str := lit "see http: //x".
Definition tabbed_url_line : str := lit "see https:" ++ [9%N] ++ lit "//x".

(** Whitespace inside the scheme: [http :] is not [http:]. *)
Definition broken_scheme_line : str := lit "see http : //x".

(** Inside a double-quoted string, a single quote after two
    backslashes. *)
Definition nested_quote_line : str :=
  [Ch.dquote; Ch.backslash; Ch.backslash; Ch.squote].

(** A double-quoted text holding a single quote: [dq ' dq]. *)
Definition quoted_line : str := [Ch.dquote; Ch.squote; Ch.dquote].

(** [a \\' b]: a quote after two backslashes. *)
Definition double_backslash_line : str :=
  lit "a" ++ [Ch.backslash; Ch.backslash; Ch.squote] ++ lit "b".

Definition crlf : str := [Ch.CR; Ch.LF].

(** Removing the inner comment splices a new opening delimiter. *)
Definition spliced_html : str := lit "<!<!---->-- x -->".
Definition spliced_css : str := lit "//**/* x */".

(** A line followed by an empty line. *)
Definition blank_tail_js : str := lit "a" ++ nl ++ nl.

(** A text without any comment marker, ending with a newline. *)
Definition plain_js : str := lit "let a = 1;" ++ nl.

(** A text without any comment marker, its two lines separated by a
    carriage return and a newline. *)
Definition plain_crlf_js : str := lit "a = 1;" ++ crlf ++ lit "b = 2;".

Definition crlf_js : str :=
  lit "a = 1;" ++ crlf ++ lit "b = 2; // two" ++ crlf ++ lit "c = 3;".

Definition no_files : filesystem := fun _ => None.

(** The world with one writable regular file. *)
Definition world_with (p : Path) (text : option str) : world :=
  {| disk := update no_files (path_name p) (RegularFile text true);
     log := [] |}.

Definition app_js : Path :=
  {| path_name := lit "src/app.js"; suffix := lit ".js" |}.

(** A file with a recognized suffix that cannot be read as text. *)
Definition bad_js : Path :=
  {| path_name := lit "src/bad.JS"; suffix := lit ".JS" |}.

Definition notes_txt : Path :=
  {| path_name := lit "notes.txt"; suffix := lit ".txt" |}.

Definition style_css : Path :=
  {| path_name := lit "style.css"; suffix := lit ".css" |}.

(** The world with one regular file that refuses a write. *)
Definition world_readonly (p : Path) (text : str) : world :=
  {| disk := update no_files (path_name p) (RegularFile (Some text) false);
     log := [] |}.

(** A style sheet with a comment, and a script without one. *)
Definition two_files : world :=
  {| disk := update (update no_files (path_name style_css)
                            (RegularFile (Some (lit "a{}/* c */b{}")) true))
                    (path_name app_js)
                    (RegularFile (Some (lit "let a = 1;")) true);
     log := [] |}.

(** ** Strings: basic facts *)

Lemma str_eqb_eq (a b : str) : str_eqb a b = true <-> a = b.
Proof.
  revert b; induction a as [|x a IH]; intros [|y b]; simpl;
    try (split; [discriminate | congruence]); try tauto.
  rewrite andb_true_iff, N.eqb_eq, IH.
  split; [intros [-> ->]; reflexivity | intros H; inversion H; auto].
Qed.

Lemma str_eqb_refl (a : str) : str_eqb a a = true.
Proof. apply str_eqb_eq; reflexivity. Qed.

Lemma str_eqb_neq (a b : str) : str_eqb a b = false <-> a <> b.
Proof.
  rewrite <- str_eqb_eq. destruct (str_eqb a b); split; congruence.
Qed.

Lemma startswith_iff (s p : str) :
  startswith s p = true <-> exists r, s = p ++ r.
Proof.
  revert s; induction p as [|x p IH]; intros s; simpl.
  - split; [intros _; exists s; reflexivity | reflexivity].
  - destruct s as [|y s].
    + split; [discriminate | intros [r H]; discriminate].
    + rewrite andb_true_iff, N.eqb_eq, IH. split.
      * intros [-> [r ->]]. exists r; reflexivity.
      * intros [r H]. inversion H; subst. split; [reflexivity | eauto].
Qed.

Lemma startswith_app (p r : str) : startswith (p ++ r) p = true.
Proof. apply startswith_iff; eauto. Qed.

Lemma startswith_skipn (s p : str) :
  startswith s p = true -> s = p ++ skipn (length p) s.
Proof.
  intros H. apply startswith_iff in H as [r ->].
  rewrite skipn_app, skipn_all, Nat.sub_diag. reflexivity.
Qed.

Lemma startswith_nil (s : str) : startswith s [] = true.
Proof. destruct s; reflexivity. Qed.

Lemma endswith_iff (s p : str) :
  endswith s p = true <-> exists r, s = r ++ p.
Proof.
  unfold endswith. rewrite startswith_iff. split.
  - intros [r H]. exists (rev r).
    rewrite <- (rev_involutive s), H, rev_app_distr, rev_involutive.
    reflexivity.
  - intros [r ->]. exists (rev r). apply rev_app_distr.
Qed.

Lemma contains_iff (s p : str) :
  contains s p = true <-> exists a b, s = a ++ p ++ b.
Proof.
  induction s as [|c s IH].
  - simpl. rewrite orb_false_r, startswith_iff. split.
    + intros [r H]. exists [], r. exact H.
    + intros [a [b H]]. destruct a; [eauto | discriminate].
  - simpl. rewrite orb_true_iff, IH, startswith_iff. split.
    + intros [[r H] | [a [b H]]].
      * exists [], r. exact H.
      * exists (c :: a), b. rewrite H. reflexivity.
    + intros [[|x a] [b H]].
      * left. exists b. exact H.
      * right. inversion H; subst. eauto.
Qed.

Lemma contains_cons_false (c : char) (s p : str) :
  contains (c :: s) p = false ->
  startswith (c :: s) p = false /\ contains s p = false.
Proof. simpl. apply orb_false_iff. Qed.

Lemma contains_app_false (a b p : str) :
  contains (a ++ b) p = false ->
  contains a p = false /\ contains b p = false.
Proof.
  intros H. split.
  - destruct (contains a p) eqn:E; [|reflexivity].
    apply contains_iff in E as [x [y ->]].
    rewrite <- H. symmetry. apply contains_iff.
    exists x, (y ++ b). now rewrite <- !app_assoc.
  - destruct (contains b p) eqn:E; [|reflexivity].
    apply contains_iff in E as [x [y ->]].
    rewrite <- H. symmetry. apply contains_iff.
    exists (a ++ x), y. now rewrite <- !app_assoc.
Qed.

Lemma find_after_Some (p s r : str) :
  find_after p s = Some r -> exists pre, s = pre ++ p ++ r.
Proof.
  induction s as [|c s IH]; simpl.
  - destruct (startswith [] p) eqn:E; [|discriminate].
    intros [= <-]. exists []. now apply startswith_skipn.
  - destruct (startswith (c :: s) p) eqn:E.
    + intros [= <-]. exists []. now apply startswith_skipn.
    + intros H. destruct (IH H) as [pre ->]. now exists (c :: pre).
Qed.

Lemma find_after_None (p s : str) :
  find_after p s = None <-> contains s p = false.
Proof.
  induction s as [|c s IH]; simpl.
  - destruct (startswith [] p); split; discriminate || reflexivity.
  - destruct (startswith (c :: s) p); simpl; [split; discriminate | exact IH].
Qed.

Lemma find_after_length (p s r : str) :
  find_after p s = Some r -> length r + length p <= length s.
Proof.
  intros H. apply find_after_Some in H as [pre ->].
  rewrite !length_app. lia.
Qed.

Lemma last_app_nonempty (a b : str) (d : char) :
  b <> [] -> last (a ++ b) d = last b d.
Proof.
  intros Hb. induction a as [|z a IH]; [reflexivity|].
  simpl. destruct (a ++ b) eqn:E; [|exact IH].
  apply app_eq_nil in E as [_ ->]. congruence.
Qed.

(** ** The substitution: unfolding, induction principle, basic facts *)

Section ReSubFacts.
Variables op cl : str.
Hypothesis op_nonempty : op <> [].

Lemma match_rest_shorter (s rest : str) :
  find_after cl (skipn (length op) s) = Some rest ->
  startswith s op = true ->
  length rest < length s.
Proof.
  intros Hf Hs. apply find_after_length in Hf.
  apply startswith_iff in Hs as [r ->].
  rewrite skipn_app, skipn_all, Nat.sub_diag in Hf. simpl in Hf.
  rewrite length_app. destruct op; [congruence | simpl; lia].
Qed.

Lemma re_sub_fuel_enough (f1 f2 : nat) (s : str) :
  length s <= f1 -> length s <= f2 ->
  re_sub_fuel op cl f1 s = re_sub_fuel op cl f2 s.
Proof.
  revert f2 s; induction f1 as [|f1 IH]; intros f2 s H1 H2.
  - destruct s; [|simpl in H1; lia]. destruct f2; reflexivity.
  - destruct f2 as [|f2].
    + destruct s; [reflexivity | simpl in H2; lia].
    + destruct s as [|c t]; [reflexivity|].
      cbn [re_sub_fuel]. simpl in H1, H2.
      destruct (startswith (c :: t) op) eqn:Es.
      * destruct (find_after cl (skipn (length op) (c :: t))) eqn:Ef.
        -- pose proof (match_rest_shorter _ Ef Es) as Hl. simpl in Hl.
           apply IH; lia.
        -- f_equal. apply IH; lia.
      * f_equal. apply IH; lia.
Qed.

Lemma re_sub_nil : re_sub op cl [] = [].
Proof. reflexivity. Qed.

Lemma re_sub_cons (c : char) (t : str) :
  re_sub op cl (c :: t) =
  if startswith (c :: t) op then
    match find_after cl (skipn (length op) (c :: t)) with
    | Some rest => re_sub op cl rest
    | None => c :: re_sub op cl t
    end
  else c :: re_sub op cl t.
Proof.
  unfold re_sub. cbn [length re_sub_fuel].
  destruct (startswith (c :: t) op) eqn:Es.
  - destruct (find_after cl (skipn (length op) (c :: t))) eqn:Ef.
    + pose proof (match_rest_shorter _ Ef Es) as Hl. simpl in Hl.
      apply re_sub_fuel_enough; lia.
    + reflexivity.
  - reflexivity.
Qed.

(** Induction following the substitution: a text is empty, or starts
    with a character that is kept, or starts with a match that is
    dropped. *)
Lemma re_sub_induction (P : str -> str -> Prop) :
  P [] [] ->
  (forall c t,
      startswith (c :: t) op = false \/
      find_after cl (skipn (length op) (c :: t)) = None ->
      P t (re_sub op cl t) -> P (c :: t) (c :: re_sub op cl t)) ->
  (forall s mid rest,
      s = op ++ mid ++ cl ++ rest ->
      find_after cl (skipn (length op) s) = Some rest ->
      P rest (re_sub op cl rest) -> P s (re_sub op cl rest)) ->
  forall s, P s (re_sub op cl s).
Proof.
  intros Hnil Hkeep Hdrop s.
  remember (length s) as n eqn:Hn.
  revert s Hn. induction n as [n IH] using lt_wf_ind. intros s Hn.
  destruct s as [|c t]; [exact Hnil|].
  rewrite re_sub_cons.
  destruct (startswith (c :: t) op) eqn:Es.
  - destruct (find_after cl (skipn (length op) (c :: t))) as [rest|] eqn:Ef.
    + pose proof (match_rest_shorter _ Ef Es) as Hl.
      destruct (find_after_Some _ _ Ef) as [mid Hmid].
      apply Hdrop with (mid := mid).
      * rewrite (startswith_skipn _ _ Es) at 1. now rewrite Hmid.
      * exact Ef.
      * apply (IH (length rest)); [lia | reflexivity].
    + apply Hkeep; [now right|].
      apply (IH (length t)); [simpl in Hn; lia | reflexivity].
  - apply Hkeep; [now left|].
    apply (IH (length t)); [simpl in Hn; lia | reflexivity].
Qed.

(** A text without the opening delimiter is left as it is. *)
Lemma re_sub_no_open (s : str) :
  contains s op = false -> re_sub op cl s = s.
Proof.
  induction s as [|c t IH]; intros H; [reflexivity|].
  apply contains_cons_false in H as [H1 H2].
  rewrite re_sub_cons, H1, IH by assumption. reflexivity.
Qed.

(** So is a text without a comment, even when it holds an opening
    delimiter. *)
Lemma re_sub_no_comment (s : str) :
  has_comment op cl s = false -> re_sub op cl s = s.
Proof.
  induction s as [|c t IH]; intros H; [reflexivity|].
  rewrite re_sub_cons. unfold has_comment in H. cbn [find_after] in H.
  destruct (startswith (c :: t) op) eqn:Es.
  - pose proof H as Hn. apply find_after_None in Hn. rewrite Hn.
    f_equal. apply IH. unfold has_comment.
    destruct (find_after op t) as [r|] eqn:Ef; [|reflexivity].
    apply find_after_Some in Ef as [pre ->].
    replace (c :: pre ++ op ++ r) with ((c :: pre ++ op) ++ r) in H
      by (simpl; now rewrite <- app_assoc).
    rewrite skipn_app in H.
    replace (length op - length (c :: pre ++ op)) with 0 in H
      by (simpl; rewrite length_app; lia).
    now apply contains_app_false in H.
  - f_equal. apply IH. exact H.
Qed.

Lemma re_sub_length (s : str) : length (re_sub op cl s) <= length s.
Proof.
  apply (re_sub_induction (fun s r => length r <= length s)).
  - reflexivity.
  - intros c t _ IH. simpl. lia.
  - intros s0 mid rest -> _ IH. rewrite !length_app. lia.
Qed.

(** The last character of a text survives when it is not the last
    character of the closing delimiter. *)
Lemma re_sub_keeps_last (s : str) (x : char) :
  last cl x <> x ->
  exists r, re_sub op cl (s ++ [x]) = r ++ [x].
Proof.
  intros Hx.
  enough (H : forall u, u <> [] -> last u x = x ->
                        re_sub op cl u <> [] /\ last (re_sub op cl u) x = x).
  { destruct (H (s ++ [x])) as [Hne Hl].
    - now destruct s.
    - apply last_last.
    - destruct (exists_last Hne) as [r [y Hr]].
      rewrite Hr, last_last in Hl. subst y. eauto. }
  intros u.
  apply (re_sub_induction
           (fun u r => u <> [] -> last u x = x -> r <> [] /\ last r x = x)).
  - congruence.
  - intros c t _ IH _ Hl. split; [discriminate|].
    destruct t as [|d t]; [rewrite re_sub_nil; exact Hl|].
    destruct IH as [Hne IHl]; [discriminate | exact Hl |].
    destruct (re_sub op cl (d :: t)) eqn:E; [congruence | exact IHl].
  - intros s0 mid rest -> Hf IH _ Hl.
    rewrite !app_assoc in Hl.
    destruct rest as [|d rest].
    + exfalso. apply Hx. rewrite app_nil_r in Hl.
      rewrite last_app_nonempty in Hl; [exact Hl|].
      intros ->. now apply Hx.
    + apply IH; [discriminate|].
      rewrite last_app_nonempty in Hl; [exact Hl | discriminate].
Qed.
End ReSubFacts.

(** ** Lines: [splitlines] and [join] *)

Lemma splitlines_no_break (s : str) : Forall no_break (splitlines s).
Proof.
  induction s as [|c t IH]; cbn [splitlines]; [constructor|].
  destruct (is_linebreak c) eqn:Ec.
  - destruct (N.eqb c Ch.CR && startswith t [Ch.LF]); [exact IH|].
    constructor; [constructor | exact IH].
  - destruct (splitlines t) as [|l ls].
    + repeat constructor. exact Ec.
    + inversion IH; subst. constructor; [constructor|]; assumption.
Qed.

Lemma splitlines_line_then (sep : str) :
  (forall rest, splitlines (sep ++ rest) = [] :: splitlines rest) ->
  forall l rest, no_break l ->
                 splitlines (l ++ sep ++ rest) = l :: splitlines rest.
Proof.
  intros Hsep l rest Hl.
  induction Hl as [|c l Hc Hl IH]; cbn [app splitlines].
  - apply Hsep.
  - rewrite Hc, IH. reflexivity.
Qed.

Lemma splitlines_single (l : str) :
  no_break l -> l <> [] -> splitlines l = [l].
Proof.
  intros Hl. induction Hl as [|c l Hc Hl IH]; [congruence|].
  intros _. cbn [splitlines]. rewrite Hc.
  destruct l as [|d l]; [reflexivity|].
  rewrite IH by discriminate. reflexivity.
Qed.

(** Splitting what was joined gives the lines back, when no line holds
    a boundary and the last line is not empty. *)
Lemma splitlines_join (sep : str) (ls : list str) :
  (forall rest, splitlines (sep ++ rest) = [] :: splitlines rest) ->
  Forall no_break ls ->
  last ls nl <> [] ->
  splitlines (join sep ls) = ls.
Proof.
  intros Hsep Hls. induction Hls as [|l ls Hl Hls IH]; [reflexivity|].
  intros Hlast. cbn [join]. destruct ls as [|l' ls].
  - apply splitlines_single; assumption.
  - rewrite (splitlines_line_then _ Hsep) by assumption.
    f_equal. apply IH. exact Hlast.
Qed.

Lemma splitlines_nl_then (rest : str) :
  splitlines (nl ++ rest) = [] :: splitlines rest.
Proof. reflexivity. Qed.

Lemma splitlines_crlf_then (rest : str) :
  splitlines ([Ch.CR; Ch.LF] ++ rest) = [] :: splitlines rest.
Proof. reflexivity. Qed.

Lemma join_length (sep : str) (ls : list str) :
  length sep = 1 -> length (join sep ls) = total ls - 1.
Proof.
  intros Hsep. induction ls as [|l ls IH]; [reflexivity|].
  cbn [join total]. destruct ls as [|l' ls].
  - simpl. lia.
  - rewrite !length_app, IH, Hsep. cbn [total]. lia.
Qed.

Lemma total_map (f : str -> str) (ls : list str) :
  (forall l, length (f l) <= length l) ->
  total (List.map f ls) <= total ls.
Proof.
  intros Hf. induction ls as [|l ls IH]; simpl; [lia|].
  specialize (Hf l). lia.
Qed.

Lemma total_splitlines (s : str) :
  total (splitlines s) + (if ends_with_break s then 1 else 0)
  <= length s + 1.
Proof.
  induction s as [|c t IH]; [simpl; lia|].
  cbn [splitlines ends_with_break length].
  destruct (is_linebreak c) eqn:Ec.
  - destruct (N.eqb c Ch.CR && startswith t [Ch.LF]) eqn:E.
    + destruct t as [|d t]; [rewrite andb_false_r in E; discriminate|]. lia.
    + destruct t as [|d t]; [simpl; lia|]. cbn [total length] in *. lia.
  - destruct t as [|d t]; [simpl; lia|].
    destruct (splitlines (d :: t)) as [|l ls].
    + cbn [total length] in *.
      destruct (ends_with_break (d :: t)); lia.
    + cbn [total length] in *. lia.
Qed.

Lemma ends_with_break_last (s : str) (x : char) :
  ends_with_break (s ++ [x]) = is_linebreak x.
Proof.
  induction s as [|c s IH]; [reflexivity|].
  simpl. destruct (s ++ [x]) eqn:E; [destruct s; discriminate | exact IH].
Qed.

Lemma join_chars (P : char -> Prop) (sep : str) (ls : list str) :
  Forall P sep -> Forall (Forall P) ls -> Forall P (join sep ls).
Proof.
  intros Hsep Hls. induction Hls as [|l ls Hl Hls IH]; [constructor|].
  cbn [join]. destruct ls; [exact Hl|].
  apply Forall_app; split; [exact Hl|].
  apply Forall_app; split; assumption.
Qed.

Lemma splitlines_first_prefix (s l : str) (ls : list str) :
  splitlines s = l :: ls -> exists r, s = l ++ r.
Proof.
  revert l ls; induction s as [|c t IH]; intros l ls H; [discriminate|].
  cbn [splitlines] in H. destruct (is_linebreak c) eqn:Ec.
  - destruct (N.eqb c Ch.CR && startswith t [Ch.LF]) eqn:E.
    + apply andb_true_iff in E as [_ E].
      apply startswith_iff in E as [r ->].
      change (splitlines ([Ch.LF] ++ r)) with ([] :: splitlines r) in H.
      injection H as <- _. now eexists.
    + injection H as <- _. now eexists.
  - destruct (splitlines t) as [|l0 ls0] eqn:Et.
    + injection H as <- _. now exists t.
    + injection H as <- _. destruct (IH _ _ eq_refl) as [r ->].
      now exists r.
Qed.

(** What a text does not contain, its lines do not contain. *)
Lemma splitlines_contains (s p : str) :
  contains s p = false ->
  Forall (fun l => contains l p = false) (splitlines s).
Proof.
  induction s as [|c t IH]; intros H; [constructor|].
  pose proof H as H0. apply contains_cons_false in H as [H1 H2].
  specialize (IH H2). cbn [splitlines].
  destruct (is_linebreak c) eqn:Ec.
  - destruct (N.eqb c Ch.CR && startswith t [Ch.LF]); [exact IH|].
    constructor; [|exact IH].
    destruct p; [discriminate H1 | reflexivity].
  - destruct (splitlines t) as [|l0 ls0] eqn:Et.
    + constructor; [|constructor].
      change (c :: t) with ([c] ++ t) in H0.
      now apply contains_app_false in H0.
    + destruct (splitlines_first_prefix _ Et) as [r Hr].
      inversion IH; subst. constructor; [|assumption].
      change (c :: l0 ++ r) with ((c :: l0) ++ r) in H0.
      now apply contains_app_false in H0.
Qed.

Lemma join_snoc (sep : str) (ls : list str) (l : str) :
  ls <> [] -> join sep (ls ++ [l]) = join sep ls ++ sep ++ l.
Proof.
  induction ls as [|a ls IH]; [congruence|]. intros _.
  destruct ls as [|b ls]; [reflexivity|].
  change (join sep ((a :: b :: ls) ++ [l]))
    with (a ++ sep ++ join sep ((b :: ls) ++ [l])).
  rewrite IH by discriminate.
  change (join sep (a :: b :: ls)) with (a ++ sep ++ join sep (b :: ls)).
  now rewrite <- !app_assoc.
Qed.

Lemma map_fixed (f : str -> str) (ls : list str) :
  Forall (fun l => f l = l) ls -> List.map f ls = ls.
Proof.
  induction 1 as [|l ls Hl _ IH]; [reflexivity|].
  simpl. now rewrite Hl, IH.
Qed.

(** ** The line scanner: one iteration *)

Ltac scan_cases :=
  unfold scan_char, copy;
  repeat match goal with
         | |- context [if ?b then _ else _] => destruct b eqn:?
         end.

Lemma scan_char_result st ch next st' :
  scan_char st ch next = Continue st' ->
  result_chars st' = result_chars st ++ [ch].
Proof. scan_cases; intros [= <-] || discriminate; reflexivity. Qed.

Lemma scan_char_escaped st ch next st' :
  scan_char st ch next = Continue st' ->
  escaped st' = N.eqb ch Ch.backslash && negb (escaped st).
Proof.
  scan_cases; intros [= <-] || discriminate; cbn [escaped];
    try reflexivity;
    repeat match goal with
           | H : _ && _ = true |- _ => apply andb_true_iff in H as [? ?]
           | H : N.eqb ch _ = true |- _ => apply N.eqb_eq in H; subst ch
           end;
    try (destruct (escaped st); simpl in *; congruence).
Qed.

(** What follows the current character only decides whether the loop
    breaks: an iteration that continues does the same whatever follows. *)
Lemma scan_char_lookahead st ch next st' :
  scan_char st ch next = Continue st' ->
  scan_char st ch None = Continue st'.
Proof.
  unfold scan_char. cbn [next_is]. rewrite andb_false_r. cbn [andb].
  repeat match goal with
         | |- context [if ?b then _ else _] => destruct b eqn:?
         end; congruence.
Qed.

Lemma scan_char_no_slash st ch next :
  N.eqb ch Ch.slash && next_is next Ch.slash = false ->
  exists st', scan_char st ch next = Continue st'.
Proof.
  intros H. unfold scan_char. rewrite H. cbn [andb].
  repeat match goal with
         | |- context [if ?b then _ else _] => destruct b eqn:?
         end; eauto.
Qed.

Lemma scan_char_at_most_one st ch next st' :
  at_most_one st ->
  scan_char st ch next = Continue st' ->
  at_most_one st'.
Proof.
  unfold at_most_one.
  scan_cases; intros Hi [= <-]; cbn [in_sq in_dq in_bt]; try exact Hi;
    repeat match goal with
           | H : _ && _ = true |- _ => apply andb_true_iff in H as [? ?]
           | H : negb _ = true |- _ => apply negb_true_iff in H
           end;
    repeat match goal with
           | H : ?f st = false |- _ => rewrite H in *
           end;
    simpl; rewrite ?andb_false_r; reflexivity.
Qed.

(** ** The line scanner: the loop *)

Lemma hd_error_nth (tl : str) : hd_error tl = nth_error tl 0.
Proof. destruct tl; reflexivity. Qed.

Lemma last_cons_default (A : Type) (a : A) (l : list A) (d d' : A) :
  last (a :: l) d = last (a :: l) d'.
Proof.
  revert a; induction l as [|b l IH]; intros a; [reflexivity|].
  change (last (b :: l) d = last (b :: l) d'). apply IH.
Qed.

(** The loop is the last state of its trace. *)
Lemma scan_loop_trace (rest : str) (st : scan_state) :
  scan_loop st rest = last (scan_trace st rest) st.
Proof.
  revert st; induction rest as [|ch tl IH]; intros st; [reflexivity|].
  cbn [scan_loop scan_trace].
  destruct (scan_char st ch (hd_error tl)) as [st'|]; [|reflexivity].
  rewrite IH.
  assert (exists x, scan_trace st' tl = st' :: x) as [x ->]
      by (destruct tl; cbn [scan_trace]; eauto).
  change (last (st' :: x) st' = last (st' :: x) st).
  apply last_cons_default.
Qed.

(** From one cursor position to the next. *)
Lemma scan_trace_step (rest : str) (st : scan_state) (i : nat) sti :
  nth_error (scan_trace st rest) i = Some sti ->
  nth_error (scan_trace st rest) (S i) =
  match nth_error rest i with
  | Some ch =>
    match scan_char sti ch (nth_error rest (S i)) with
    | Continue st' => Some st'
    | Break => None
    end
  | None => None
  end.
Proof.
  revert st i; induction rest as [|ch tl IH]; intros st i Hi.
  - destruct i as [|i]; simpl in *; [reflexivity|].
    destruct i; discriminate.
  - cbn [scan_trace] in *. destruct i as [|i].
    + injection Hi as <-.
      change (nth_error (ch :: tl) 0) with (Some ch).
      change (nth_error (ch :: tl) 1) with (nth_error tl 0).
      rewrite <- hd_error_nth.
      destruct (scan_char st ch (hd_error tl)) as [st'|]; [|reflexivity].
      destruct tl; reflexivity.
    + cbn [nth_error] in *.
      destruct (scan_char st ch (hd_error tl)) as [st'|].
      * now apply IH.
      * destruct i; discriminate.
Qed.

Lemma scan_trace_invariant (P : scan_state -> Prop) :
  (forall st ch next st',
      P st -> scan_char st ch next = Continue st' -> P st') ->
  forall rest st, P st -> Forall P (scan_trace st rest).
Proof.
  intros Hstep rest. induction rest as [|ch tl IH]; intros st Hst.
  - repeat constructor. exact Hst.
  - cbn [scan_trace]. constructor; [exact Hst|].
    destruct (scan_char st ch (hd_error tl)) as [st'|] eqn:E; [|constructor].
    apply IH. eapply Hstep; eassumption.
Qed.

(** The characters copied so far are the characters consumed so far. *)
Lemma scan_trace_result (rest : str) (st : scan_state) (i : nat) sti :
  nth_error (scan_trace st rest) i = Some sti ->
  result_chars sti = result_chars st ++ firstn i rest.
Proof.
  revert st i; induction rest as [|ch tl IH]; intros st i Hi.
  - destruct i as [|i]; simpl in *.
    + injection Hi as <-. now rewrite app_nil_r.
    + destruct i; discriminate.
  - cbn [scan_trace] in Hi. destruct i as [|i]; cbn [nth_error] in Hi.
    + injection Hi as <-. simpl. now rewrite app_nil_r.
    + destruct (scan_char st ch (hd_error tl)) as [st'|] eqn:E.
      * rewrite (IH _ _ Hi), (scan_char_result _ _ _ E), <- app_assoc.
        reflexivity.
      * destruct i; discriminate.
Qed.

(** The loop copies a prefix of what is still to come, and scanning
    that prefix alone ends in the same state. *)
Lemma scan_loop_prefix (rest : str) (st : scan_state) :
  exists k rest',
    rest = k ++ rest' /\
    result_chars (scan_loop st rest) = result_chars st ++ k /\
    scan_loop st k = scan_loop st rest.
Proof.
  revert st; induction rest as [|ch tl IH]; intros st.
  - exists [], []. simpl. now rewrite app_nil_r.
  - cbn [scan_loop].
    destruct (scan_char st ch (hd_error tl)) as [st'|] eqn:E.
    + destruct (IH st') as [k [rest' [Hk [Hr Hs]]]].
      exists (ch :: k), rest'. split; [now rewrite Hk|]. split.
      * rewrite Hr, (scan_char_result _ _ _ E), <- app_assoc. reflexivity.
      * cbn [scan_loop].
        assert (E' : scan_char st ch (hd_error k) = Continue st').
        { destruct k as [|d k].
          - eapply scan_char_lookahead; eassumption.
          - rewrite Hk in E. exact E. }
        rewrite E'. exact Hs.
    + exists [], (ch :: tl). simpl. now rewrite app_nil_r.
Qed.

Lemma scan_line_prefix (line : str) :
  exists rest, line = scan_line line ++ rest.
Proof.
  destruct (scan_loop_prefix line init_state) as [k [rest [Hk [Hr _]]]].
  exists rest. unfold scan_line. rewrite Hr. exact Hk.
Qed.

Lemma scan_line_length (line : str) : length (scan_line line) <= length line.
Proof.
  destruct (scan_line_prefix line) as [rest H].
  rewrite H at 2. rewrite length_app. lia.
Qed.

(** Scanning a scanned line copies all of it. *)
Lemma scan_line_idempotent (line : str) :
  scan_line (scan_line line) = scan_line line.
Proof.
  destruct (scan_loop_prefix line init_state) as [k [rest [Hk [Hr Hs]]]].
  unfold scan_line. rewrite Hr. simpl. rewrite Hs, Hr. reflexivity.
Qed.

Lemma scan_line_no_break (line : str) :
  no_break line -> no_break (scan_line line).
Proof.
  intros H. destruct (scan_line_prefix line) as [rest Hl].
  rewrite Hl in H. apply Forall_app in H. tauto.
Qed.

(** A line without [//] is copied whole. *)
Lemma scan_loop_no_comment (rest : str) (st : scan_state) :
  contains rest (lit "//") = false ->
  result_chars (scan_loop st rest) = result_chars st ++ rest.
Proof.
  revert st; induction rest as [|ch tl IH]; intros st H.
  - simpl. now rewrite app_nil_r.
  - apply contains_cons_false in H as [H1 H2].
    cbn [scan_loop].
    destruct (scan_char_no_slash st ch (hd_error tl)) as [st' E].
    { destruct tl as [|d tl]; cbn [hd_error next_is].
      - apply andb_false_r.
      - cbn in H1. unfold Ch.slash.
        rewrite (N.eqb_sym ch), (N.eqb_sym d).
        rewrite andb_true_r in H1. exact H1. }
    rewrite E, IH by assumption.
    rewrite (scan_char_result _ _ _ E), <- app_assoc. reflexivity.
Qed.

Lemma scan_line_no_comment (line : str) :
  contains line (lit "//") = false -> scan_line line = line.
Proof.
  intros H. unfold scan_line. now rewrite scan_loop_no_comment.
Qed.

Lemma is_quote_cases (ch : char) :
  is_quote ch = true ->
  ch = Ch.squote \/ ch = Ch.dquote \/ ch = Ch.backtick.
Proof.
  unfold is_quote. rewrite !orb_true_iff, !N.eqb_eq. tauto.
Qed.

Lemma scan_char_quote_unescaped st ch next :
  is_quote ch = true -> escaped st = false ->
  exists st', scan_char st ch next = Continue st' /\ quote_step st ch st'.
Proof.
  intros Hq He. unfold scan_char, quote_step, copy. rewrite He.
  destruct (is_quote_cases _ Hq) as [-> | [-> | ->]]; cbn;
    destruct (in_sq st), (in_dq st), (in_bt st); cbn;
      eexists; (split; [reflexivity|]); cbn; auto.
Qed.

Lemma scan_char_quote_escaped st ch next :
  is_quote ch = true -> escaped st = true ->
  exists st', scan_char st ch next = Continue st' /\
              same_strings st st' /\ escaped st' = false.
Proof.
  intros Hq He. unfold scan_char, same_strings, copy. rewrite He.
  destruct (is_quote_cases _ Hq) as [-> | [-> | ->]]; cbn;
    eexists; (split; [reflexivity|]); cbn; auto.
Qed.

Lemma trailing_backslashes_snoc (s : str) (c : char) :
  trailing_backslashes (s ++ [c]) =
  if N.eqb c Ch.backslash then S (trailing_backslashes s) else 0.
Proof.
  unfold trailing_backslashes. rewrite rev_app_distr. reflexivity.
Qed.

Lemma firstn_succ_nth (s : str) (i : nat) (c : char) :
  nth_error s i = Some c -> firstn (S i) s = firstn i s ++ [c].
Proof.
  revert i; induction s as [|d s IH]; intros [|i] H; try discriminate.
  - injection H as ->. reflexivity.
  - cbn [firstn app]. f_equal. now apply IH.
Qed.

(** At every cursor position reached, [escaped] is the parity of the
    backslashes the consumed text ends with. *)
Lemma escaped_parity (line : str) (i : nat) (st : scan_state) :
  nth_error (scan_trace init_state line) i = Some st ->
  escaped st = Nat.odd (trailing_backslashes (firstn i line)).
Proof.
  revert st; induction i as [|i IH]; intros st Hi.
  - destruct line; simpl in Hi; injection Hi as <-; reflexivity.
  - destruct (nth_error (scan_trace init_state line) i) as [sti|] eqn:Ei.
    + rewrite (scan_trace_step _ _ _ Ei) in Hi.
      destruct (nth_error line i) as [ch|] eqn:Ec; [|discriminate].
      destruct (scan_char sti ch (nth_error line (S i))) as [st'|] eqn:Es;
        [|discriminate].
      injection Hi as <-.
      rewrite (scan_char_escaped _ _ _ Es), (IH _ eq_refl).
      rewrite (firstn_succ_nth _ _ Ec), trailing_backslashes_snoc.
      destruct (N.eqb ch Ch.backslash); [|reflexivity].
      rewrite Nat.odd_succ, <- Nat.negb_odd. reflexivity.
    + exfalso. apply nth_error_None in Ei.
      assert (nth_error (scan_trace init_state line) (S i) = None)
        by (apply nth_error_None; lia).
      congruence.
Qed.

(** * The scanner's properties *)

(** C1: on the text with a trailing line comment, a quoted [//], a
    block comment over two lines and a [//] inside a template literal,
    [strip_js] returns the text with the line comment and the block
    comment removed and both quoted [//] kept. *)
Theorem strip_js_block_and_line_example :
  strip_js js_example_in = js_example_out.
Proof. vm_compute. reflexivity. Qed.

(** C2: at every cursor position a line scan reaches, at most one of
    [in_sq], [in_dq], [in_bt] is set; and an unescaped quote or backtick
    met there flips its own flag exactly when both other flags are off,
    leaving the other two as they are. *)
Theorem string_contexts_exclusive (line : str) (i : nat) (st : scan_state) :
  nth_error (scan_trace init_state line) i = Some st ->
  at_most_one st /\
  forall ch,
    nth_error line i = Some ch -> is_quote ch = true -> escaped st = false ->
    exists st',
      nth_error (scan_trace init_state line) (S i) = Some st' /\
      quote_step st ch st'.
Proof.
  intros Hi. split.
  - assert (H : Forall at_most_one (scan_trace init_state line)).
    { apply scan_trace_invariant; [|reflexivity].
      intros s ch next s' Hs E. eapply scan_char_at_most_one; eassumption. }
    rewrite Forall_forall in H. apply H. eapply nth_error_In; eassumption.
  - intros ch Hc Hq He.
    rewrite (scan_trace_step _ _ _ Hi), Hc.
    destruct (scan_char_quote_unescaped st ch (nth_error line (S i)) Hq He)
      as [st' [E Hstep]].
    rewrite E. eauto.
Qed.

Lemma string_contexts_exclusive_witness :
  let st := {| in_sq := false; in_dq := true; in_bt := false;
               escaped := false; result_chars := [Ch.dquote] |} in
  at_most_one st /\
  forall ch,
    nth_error quoted_line 1 = Some ch -> is_quote ch = true ->
    escaped st = false ->
    exists st',
      nth_error (scan_trace init_state quoted_line) 2 = Some st' /\
      quote_step st ch st'.
Proof.
  exact (string_contexts_exclusive quoted_line 1 eq_refl).
Defined.

(** ** Trailing whitespace *)

Lemma forallb_rev (A : Type) (f : A -> bool) (l : list A) :
  forallb f (rev l) = forallb f l.
Proof.
  induction l as [|x l IH]; [reflexivity|].
  cbn [rev forallb]. rewrite forallb_app, IH. cbn [forallb].
  rewrite andb_true_r. apply andb_comm.
Qed.

Lemma lstrip_spaces (a b : str) :
  forallb isspace a = true -> lstrip (a ++ b) = lstrip b.
Proof.
  induction a as [|c a IH]; intros H; [reflexivity|].
  cbn [forallb] in H. apply andb_true_iff in H as [Hc Ha].
  cbn [app lstrip]. rewrite Hc. now apply IH.
Qed.

Lemma lstrip_split (t : str) :
  exists a, t = a ++ lstrip t /\ forallb isspace a = true.
Proof.
  induction t as [|c t [a [Ht Ha]]]; [now exists []|].
  cbn [lstrip]. destruct (isspace c) eqn:Ec.
  - exists (c :: a). cbn [app forallb]. rewrite Ec, Ha. now rewrite <- Ht.
  - now exists [].
Qed.

Lemma lstrip_head (t t' : str) (c : char) :
  lstrip t = c :: t' -> isspace c = false.
Proof.
  induction t as [|d t IH]; [discriminate|].
  cbn [lstrip]. destruct (isspace d) eqn:Ed; [exact IH|].
  now intros [= <- _].
Qed.

(** [rstrip] removes whitespace at the end, all of it and nothing
    else. *)
Lemma rstrip_spaces (u ws : str) :
  forallb isspace ws = true -> rstrip (u ++ ws) = rstrip u.
Proof.
  intros H. unfold rstrip. rewrite rev_app_distr, lstrip_spaces; [reflexivity|].
  now rewrite forallb_rev.
Qed.

Lemma rstrip_nonspace (u : str) (c : char) :
  isspace c = false -> rstrip (u ++ [c]) = u ++ [c].
Proof.
  intros H. unfold rstrip. rewrite rev_app_distr. cbn [rev app lstrip].
  rewrite H. cbn [rev]. now rewrite rev_involutive.
Qed.

Lemma rstrip_split (s : str) :
  exists ws, s = rstrip s ++ ws /\ forallb isspace ws = true.
Proof.
  destruct (lstrip_split (rev s)) as [a [Ht Ha]].
  exists (rev a). split; [|now rewrite forallb_rev].
  unfold rstrip. rewrite <- rev_app_distr, <- Ht. symmetry.
  apply rev_involutive.
Qed.

Lemma rstrip_last (s u : str) (c : char) :
  rstrip s = u ++ [c] -> isspace c = false.
Proof.
  unfold rstrip. intros H.
  apply (f_equal (@rev char)) in H.
  rewrite rev_involutive, rev_app_distr in H. cbn [rev app] in H.
  eapply lstrip_head; eassumption.
Qed.

(** A text ends with [p] once its trailing whitespace is removed
    exactly when it is [p] followed by whitespace only, for a [p] that
    does not itself end with whitespace. *)
Lemma endswith_rstrip (s p' : str) (c : char) :
  isspace c = false ->
  endswith (rstrip s) (p' ++ [c]) = true <->
  exists pre ws,
    s = pre ++ (p' ++ [c]) ++ ws /\ forallb isspace ws = true.
Proof.
  intros Hc. rewrite endswith_iff. split.
  - intros [r Hr]. destruct (rstrip_split s) as [ws [Hs Hw]].
    exists r, ws. split; [|exact Hw].
    rewrite Hs at 1. rewrite Hr. now rewrite <- app_assoc.
  - intros [pre [ws [-> Hw]]]. exists pre.
    rewrite !app_assoc, rstrip_spaces by exact Hw.
    apply rstrip_nonspace. exact Hc.
Qed.

Lemma after_scheme_iff (s : str) :
  endswith (rstrip s) (lit "http:") || endswith (rstrip s) (lit "https:")
  = true <-> after_scheme s.
Proof.
  rewrite orb_true_iff.
  change (lit "http:") with (lit "http" ++ [58%N]).
  change (lit "https:") with (lit "https" ++ [58%N]).
  rewrite !endswith_rstrip by reflexivity.
  unfold after_scheme. split.
  - intros [[pre [ws [Hs Hw]]] | [pre [ws [Hs Hw]]]].
    + exists pre, (lit "http" ++ [58%N]), ws. auto.
    + exists pre, (lit "https" ++ [58%N]), ws. auto.
  - intros [pre [scheme [ws [[-> | ->] [Hs Hw]]]]].
    + left. now exists pre, ws.
    + right. now exists pre, ws.
Qed.

(** C3: when the current and the next character are both [/] and no
    string context is active, the scanner looks at the text copied so
    far with trailing whitespace removed: [prev] is that text without
    the whitespace it ends with, and ends with no whitespace itself.
    If [prev] ends with [http:] or [https:], which is to say that the
    copied text is some text, one of the two schemes and then
    whitespace only, the [/] is copied and the scan goes on with the
    next character; otherwise the loop breaks, and the [/] and the rest
    of the line are dropped.  The line [let url = http://example.com]
    is therefore copied whole, and so is a line with a space or a tab
    between the scheme and [//], while whitespace inside the scheme
    does not count. *)
Theorem double_slash_outside_strings (st : scan_state) (tl : str) :
  no_string st = true ->
  let prev := rstrip (result_chars st) in
  (exists ws, result_chars st = prev ++ ws /\ forallb isspace ws = true) /\
  (forall u c, prev = u ++ [c] -> isspace c = false) /\
  (endswith prev (lit "http:") || endswith prev (lit "https:") = true <->
   after_scheme (result_chars st)) /\
  (endswith prev (lit "http:") || endswith prev (lit "https:") = true ->
   scan_char st Ch.slash (Some Ch.slash) = Continue (copy st Ch.slash) /\
   scan_loop st (Ch.slash :: Ch.slash :: tl) =
   scan_loop (copy st Ch.slash) (Ch.slash :: tl)) /\
  (endswith prev (lit "http:") || endswith prev (lit "https:") = false ->
   scan_char st Ch.slash (Some Ch.slash) = Break /\
   scan_loop st (Ch.slash :: Ch.slash :: tl) = st) /\
  (after_scheme (result_chars st) ->
   scan_char st Ch.slash (Some Ch.slash) = Continue (copy st Ch.slash) /\
   scan_loop st (Ch.slash :: Ch.slash :: tl) =
   scan_loop (copy st Ch.slash) (Ch.slash :: tl)) /\
  (~ after_scheme (result_chars st) ->
   scan_char st Ch.slash (Some Ch.slash) = Break /\
   scan_loop st (Ch.slash :: Ch.slash :: tl) = st) /\
  scan_line url_line = url_line /\
  scan_line spaced_url_line = spaced_url_line /\
  scan_line tabbed_url_line = tabbed_url_line /\
  scan_line broken_scheme_line = lit "see http : ".
Proof.
  intros Hns prev.
  assert (Hstep : scan_char st Ch.slash (Some Ch.slash) =
                  if negb (endswith prev (lit "http:"))
                     && negb (endswith prev (lit "https:"))
                  then Break else Continue (copy st Ch.slash)).
  { unfold scan_char. rewrite Hns. cbn [N.eqb Ch.slash Ch.backslash
      Ch.squote Ch.dquote Ch.backtick next_is Pos.eqb andb]. reflexivity. }
  assert (Hyes : endswith prev (lit "http:") || endswith prev (lit "https:")
                 = true ->
                 scan_char st Ch.slash (Some Ch.slash) =
                 Continue (copy st Ch.slash) /\
                 scan_loop st (Ch.slash :: Ch.slash :: tl) =
                 scan_loop (copy st Ch.slash) (Ch.slash :: tl)).
  { intros H. rewrite <- negb_false_iff, negb_orb in H.
    rewrite H in Hstep. split; [exact Hstep|].
    cbn [scan_loop hd_error]. rewrite Hstep. reflexivity. }
  assert (Hno : endswith prev (lit "http:") || endswith prev (lit "https:")
                = false ->
                scan_char st Ch.slash (Some Ch.slash) = Break /\
                scan_loop st (Ch.slash :: Ch.slash :: tl) = st).
  { intros H. rewrite <- negb_true_iff, negb_orb in H.
    rewrite H in Hstep. split; [exact Hstep|].
    cbn [scan_loop hd_error]. rewrite Hstep. reflexivity. }
  pose proof (after_scheme_iff (result_chars st)) as Hiff. fold prev in Hiff.
  split; [apply rstrip_split|].
  split; [intros u c; apply rstrip_last|].
  split; [exact Hiff|]. split; [exact Hyes|]. split; [exact Hno|].
  split; [intros H; apply Hyes, Hiff, H|].
  split.
  { intros H. apply Hno.
    destruct (endswith prev (lit "http:") || endswith prev (lit "https:"));
      [|reflexivity].
    exfalso. apply H, Hiff. reflexivity. }
  repeat split; vm_compute; reflexivity.
Qed.

Lemma double_slash_outside_strings_witness :
  let st := {| in_sq := false; in_dq := false; in_bt := false;
               escaped := false; result_chars := lit "see http: " |} in
  no_string st = true /\
  rstrip (result_chars st) = lit "see http:" /\
  scan_char st Ch.slash (Some Ch.slash) = Continue (copy st Ch.slash) /\
  scan_loop st (Ch.slash :: Ch.slash :: lit "x") =
  scan_loop (copy st Ch.slash) (Ch.slash :: lit "x").
Proof.
  intros st. split; [reflexivity|]. split; [vm_compute; reflexivity|].
  destruct (double_slash_outside_strings st (lit "x") eq_refl)
    as [_ [_ [_ [_ [_ [H _]]]]]].
  apply H. exists (lit "see "), (lit "http:"), (lit " ").
  split; [now left|]. split; reflexivity.
Defined.

(** C7, as amended: at every cursor position reached, [escaped] is set
    exactly when the character just consumed is a backslash that was itself met with
    [escaped] clear, that is when the consumed text ends with an odd
    number of backslashes; so it is clear again once the character after
    such a backslash is consumed.  A quote or backtick met with
    [escaped] set leaves the three string flags as they are; one met
    after exactly two backslashes is treated as an unescaped quote: it
    flips its flag when no other string context is active, and leaves
    it alone otherwise. *)
Theorem escaped_follows_unescaped_backslash
        (line : str) (i : nat) (st : scan_state) :
  nth_error (scan_trace init_state line) i = Some st ->
  escaped st = Nat.odd (trailing_backslashes (firstn i line)) /\
  (forall ch st',
      nth_error line i = Some ch ->
      nth_error (scan_trace init_state line) (S i) = Some st' ->
      escaped st' = N.eqb ch Ch.backslash && negb (escaped st)) /\
  (forall ch,
      nth_error line i = Some ch -> is_quote ch = true ->
      exists st',
        nth_error (scan_trace init_state line) (S i) = Some st' /\
        escaped st' = false /\
        (escaped st = true -> same_strings st st') /\
        (trailing_backslashes (firstn i line) = 2 -> quote_step st ch st')).
Proof.
  intros Hi. pose proof (escaped_parity _ _ Hi) as Hp.
  split; [exact Hp|]. split.
  - intros ch st' Hc Hs. rewrite (scan_trace_step _ _ _ Hi), Hc in Hs.
    destruct (scan_char st ch (nth_error line (S i))) as [s|] eqn:E;
      [|discriminate].
    injection Hs as <-. eapply scan_char_escaped; eassumption.
  - intros ch Hc Hq. rewrite (scan_trace_step _ _ _ Hi), Hc.
    destruct (escaped st) eqn:He.
    + destruct (scan_char_quote_escaped st ch (nth_error line (S i)) Hq He)
        as [st' [E [Hsame Hclear]]].
      rewrite E. exists st'.
      split; [reflexivity|]. split; [exact Hclear|]. split; [tauto|].
      intros H2. rewrite H2 in Hp. discriminate.
    + destruct (scan_char_quote_unescaped st ch (nth_error line (S i)) Hq He)
        as [st' [E Hstep]].
      rewrite E. exists st'.
      split; [reflexivity|]. split; [|split; [discriminate | tauto]].
      rewrite (scan_char_escaped _ _ _ E), He.
      destruct (is_quote_cases _ Hq) as [-> | [-> | ->]]; reflexivity.
Qed.

Lemma escaped_follows_unescaped_backslash_witness :
  let st := {| in_sq := false; in_dq := false; in_bt := false;
               escaped := false;
               result_chars := lit "a" ++ [Ch.backslash; Ch.backslash] |} in
  nth_error (scan_trace init_state double_backslash_line) 3 = Some st /\
  exists st',
    nth_error (scan_trace init_state double_backslash_line) 4 = Some st' /\
    in_sq st' = true.
Proof.
  intros st. split; [reflexivity|].
  destruct (escaped_follows_unescaped_backslash
              double_backslash_line 3 (st := st) eq_refl)
    as [_ [_ H]].
  destruct (H Ch.squote eq_refl eq_refl) as [st' [Hs [_ [_ Hq]]]].
  exists st'. split; [exact Hs|].
  destruct (Hq eq_refl) as [Hsq _]. exact Hsq.
Defined.

(** * The strippers' properties *)

(** C7, as stated, fails inside another string: in [nested_quote_line]
    the single quote comes after two backslashes and is met with
    [escaped] clear, yet [in_sq] is not flipped, because the
    double-quoted string is open. *)
Lemma quote_after_two_backslashes_in_string :
  exists st st',
    nth_error (scan_trace init_state nested_quote_line) 3 = Some st /\
    nth_error (scan_trace init_state nested_quote_line) 4 = Some st' /\
    nth_error nested_quote_line 3 = Some Ch.squote /\
    trailing_backslashes (firstn 3 nested_quote_line) = 2 /\
    escaped st = false /\
    in_dq st = true /\
    in_sq st = false /\
    in_sq st' = false.
Proof.
  do 2 eexists. repeat split; vm_compute; reflexivity.
Qed.

Lemma block_open_nonempty : block_open <> [].
Proof. discriminate. Qed.

Lemma html_open_nonempty : html_open <> [].
Proof. discriminate. Qed.

Lemma strip_js_lines (x : str) :
  strip_js x =
  join nl (List.map scan_line (splitlines (re_sub block_open block_close x))).
Proof. reflexivity. Qed.

(** A text without [/*] and [//] whose lines are separated by single
    newlines is a fixed point of [strip_js]. *)
Lemma strip_js_fixed (x : str) :
  contains x block_open = false ->
  contains x (lit "//") = false ->
  join nl (splitlines x) = x ->
  strip_js x = x.
Proof.
  intros Hb Hl Hj.
  rewrite strip_js_lines, (re_sub_no_open block_close block_open_nonempty _ Hb).
  rewrite map_fixed; [exact Hj|].
  eapply Forall_impl; [|apply splitlines_contains; exact Hl].
  intros l. apply scan_line_no_comment.
Qed.

(** The output of [strip_js] holds no line boundary but the newline. *)
Lemma strip_js_breaks (x : str) :
  Forall (fun c => is_linebreak c = true -> c = Ch.LF) (strip_js x).
Proof.
  rewrite strip_js_lines. apply join_chars.
  - repeat constructor.
  - apply Forall_map.
    eapply Forall_impl; [|apply splitlines_no_break].
    intros l Hl. apply scan_line_no_break in Hl.
    eapply Forall_impl; [|exact Hl]. simpl. congruence.
Qed.

Lemma strip_js_twice (x : str) :
  has_comment block_open block_close (strip_js x) = false ->
  endswith (strip_js x) nl = false ->
  strip_js (strip_js x) = strip_js x.
Proof.
  intros Hb He.
  rewrite (strip_js_lines (strip_js x)),
    (re_sub_no_comment block_close block_open_nonempty _ Hb).
  rewrite strip_js_lines in *.
  set (ls := splitlines (re_sub block_open block_close x)) in *.
  assert (Hnb : Forall no_break (List.map scan_line ls)).
  { apply Forall_map. eapply Forall_impl; [|apply splitlines_no_break].
    intros l. apply scan_line_no_break. }
  destruct (list_eq_dec (list_eq_dec N.eq_dec)
                        (List.map scan_line ls) [[]]) as [E1 | E1].
  { rewrite E1. reflexivity. }
  assert (Hlast : last (List.map scan_line ls) nl <> []).
  { intros Hl. destruct (List.map scan_line ls) as [|a m] eqn:Em;
      [discriminate Hl|].
    destruct (exists_last (l := a :: m)) as [m' [z Hz]]; [discriminate|].
    rewrite Hz, last_last in Hl. subst z.
    destruct m' as [|b m']; [exact (E1 Hz)|].
    rewrite Hz, join_snoc, app_nil_r in He by discriminate.
    assert (endswith (join nl (b :: m') ++ nl) nl = true)
      by (apply endswith_iff; eauto).
    congruence. }
  rewrite (splitlines_join _ splitlines_nl_then Hnb Hlast).
  rewrite map_map, (map_ext _ scan_line scan_line_idempotent).
  reflexivity.
Qed.

(** A text that ends with a newline comes out shorter. *)
Lemma strip_js_shorter (x : str) :
  length (strip_js (x ++ nl)) < length (x ++ nl).
Proof.
  rewrite strip_js_lines.
  pose proof (re_sub_length block_close block_open_nonempty (x ++ nl)) as Hle.
  destruct (re_sub_keeps_last block_close block_open_nonempty x (x := Ch.LF))
    as [r Hr]; [discriminate|].
  fold nl in Hr. rewrite Hr in *.
  pose proof (total_splitlines (r ++ nl)) as Ht.
  unfold nl in Ht at 2. rewrite ends_with_break_last in Ht.
  change (is_linebreak Ch.LF) with true in Ht.
  pose proof (total_map scan_line (splitlines (r ++ nl)) scan_line_length).
  rewrite join_length by reflexivity.
  rewrite !length_app in *. simpl in *. lia.
Qed.

(** * The walker's properties *)

Lemma process_file_unreadable (path : Path) (w : world) :
  read_text w path = Raised -> process_file path w = Returned (false, w).
Proof. intros H. unfold process_file. now rewrite H. Qed.

Lemma process_file_unchanged (path : Path) (w : world) (text : str) :
  read_text w path = Returned text ->
  dispatch (lower (suffix path)) text = Some text ->
  process_file path w = Returned (false, w).
Proof.
  intros Hr Hd. unfold process_file.
  now rewrite Hr, Hd, str_eqb_refl.
Qed.

Lemma process_file_unknown (path : Path) (w : world) (text : str) :
  read_text w path = Returned text ->
  dispatch (lower (suffix path)) text = None ->
  process_file path w = Returned (false, w).
Proof. intros Hr Hd. unfold process_file. now rewrite Hr, Hd. Qed.

Lemma process_file_changed (path : Path) (w : world) (text stripped : str) :
  read_text w path = Returned text ->
  dispatch (lower (suffix path)) text = Some stripped ->
  stripped <> text ->
  process_file path w =
  match write_text w path stripped with
  | Raised => Raised
  | Returned w' => Returned (true, w')
  end.
Proof.
  intros Hr Hd Hne. unfold process_file. rewrite Hr, Hd.
  apply str_eqb_neq in Hne. now rewrite Hne.
Qed.

Lemma dispatch_html (sfx text : str) :
  sfx = lit ".html" \/ sfx = lit ".htm" ->
  dispatch sfx text = Some (strip_html text).
Proof. intros [-> | ->]; reflexivity. Qed.

Lemma dispatch_css (text : str) :
  dispatch (lit ".css") text = Some (strip_css text).
Proof. reflexivity. Qed.

Lemma dispatch_js (text : str) :
  dispatch (lit ".js") text = Some (strip_js text).
Proof. reflexivity. Qed.

Lemma dispatch_cases (sfx text stripped : str) :
  dispatch sfx text = Some stripped ->
  (sfx = lit ".html" \/ sfx = lit ".htm") /\ stripped = strip_html text \/
  sfx = lit ".css" /\ stripped = strip_css text \/
  sfx = lit ".js" /\ stripped = strip_js text.
Proof.
  unfold dispatch.
  destruct (str_eqb sfx (lit ".html")) eqn:E1.
  { apply str_eqb_eq in E1. intros [= <-]. auto. }
  destruct (str_eqb sfx (lit ".htm")) eqn:E2.
  { apply str_eqb_eq in E2. intros [= <-]. auto. }
  destruct (str_eqb sfx (lit ".css")) eqn:E3.
  { apply str_eqb_eq in E3. intros [= <-]. auto. }
  destruct (str_eqb sfx (lit ".js")) eqn:E4; [|discriminate].
  apply str_eqb_eq in E4. intros [= <-]. auto.
Qed.

(** * The claims about the strippers and the walker *)

(** C4, as amended: a stripper applied to its own output changes
    nothing, and a second pass over the file reports it unmodified,
    whenever that output holds no comment (no opening delimiter with a
    closing delimiter after it: [<!--] and [-->] for HTML, [/*] and [*/]
    for CSS and JS) and, for JS, does not end with a newline. *)
Theorem strip_twice_without_residue (x : str) :
  (has_comment html_open html_close (strip_html x) = false ->
   strip_html (strip_html x) = strip_html x /\
   forall path w,
     lower (suffix path) = lit ".html" \/ lower (suffix path) = lit ".htm" ->
     read_text w path = Returned (strip_html x) ->
     process_file path w = Returned (false, w)) /\
  (has_comment block_open block_close (strip_css x) = false ->
   strip_css (strip_css x) = strip_css x /\
   forall path w,
     lower (suffix path) = lit ".css" ->
     read_text w path = Returned (strip_css x) ->
     process_file path w = Returned (false, w)) /\
  (has_comment block_open block_close (strip_js x) = false ->
   endswith (strip_js x) nl = false ->
   strip_js (strip_js x) = strip_js x /\
   forall path w,
     lower (suffix path) = lit ".js" ->
     read_text w path = Returned (strip_js x) ->
     process_file path w = Returned (false, w)).
Proof.
  split; [|split].
  - intros H.
    assert (E : strip_html (strip_html x) = strip_html x)
      by (apply re_sub_no_comment; [apply html_open_nonempty | exact H]).
    split; [exact E|]. intros path w Hs Hr.
    apply process_file_unchanged with (text := strip_html x); [exact Hr|].
    rewrite (dispatch_html _ Hs). now rewrite E.
  - intros H.
    assert (E : strip_css (strip_css x) = strip_css x)
      by (apply re_sub_no_comment; [apply block_open_nonempty | exact H]).
    split; [exact E|]. intros path w Hs Hr.
    apply process_file_unchanged with (text := strip_css x); [exact Hr|].
    rewrite Hs, dispatch_css. now rewrite E.
  - intros H He.
    pose proof (strip_js_twice x H He) as E.
    split; [exact E|]. intros path w Hs Hr.
    apply process_file_unchanged with (text := strip_js x); [exact Hr|].
    rewrite Hs, dispatch_js. now rewrite E.
Qed.

Lemma strip_twice_without_residue_witness :
  has_comment block_open block_close (strip_js js_example_in) = false /\
  endswith (strip_js js_example_in) nl = false /\
  strip_js (strip_js js_example_in) = strip_js js_example_in.
Proof.
  split; [vm_compute; reflexivity|]. split; [vm_compute; reflexivity|].
  destruct (strip_twice_without_residue js_example_in) as [_ [_ H]].
  apply H; vm_compute; reflexivity.
Defined.

(** C4, as stated, fails for each stripper: removing a comment can
    splice a new one together, and [strip_js] drops one trailing empty
    line per pass. *)
Lemma strip_twice_differs :
  strip_html (strip_html spliced_html) <> strip_html spliced_html /\
  strip_css (strip_css spliced_css) <> strip_css spliced_css /\
  strip_js (strip_js blank_tail_js) <> strip_js blank_tail_js.
Proof. repeat split; vm_compute; discriminate. Qed.

(** C5, as amended: a text that contains none of [<!--], [/*] and [//]
    is returned unchanged by [strip_html] and by [strip_css], and by
    [strip_js] when its lines are separated by single newlines with none
    at the end; [process_file] then neither writes the file nor reports
    it as modified. *)
Theorem no_markers_unchanged (x : str) :
  contains x html_open = false ->
  contains x block_open = false ->
  contains x (lit "//") = false ->
  strip_html x = x /\
  strip_css x = x /\
  (join nl (splitlines x) = x -> strip_js x = x) /\
  forall path w,
    read_text w path = Returned x ->
    (lower (suffix path) = lit ".js" -> join nl (splitlines x) = x) ->
    process_file path w = Returned (false, w).
Proof.
  intros Hh Hb Hl.
  assert (Eh : strip_html x = x)
    by (apply re_sub_no_open; [apply html_open_nonempty | exact Hh]).
  assert (Ec : strip_css x = x)
    by (apply re_sub_no_open; [apply block_open_nonempty | exact Hb]).
  assert (Ej : join nl (splitlines x) = x -> strip_js x = x)
    by (now apply strip_js_fixed).
  repeat split; try assumption.
  intros path w Hr Hj.
  destruct (dispatch (lower (suffix path)) x) as [stripped|] eqn:Ed.
  - apply process_file_unchanged with (text := x); [exact Hr|].
    rewrite Ed. f_equal.
    destruct (dispatch_cases _ _ Ed) as [[_ ->] | [[_ ->] | [Hs ->]]]; auto.
  - eapply process_file_unknown; eassumption.
Qed.

Lemma no_markers_unchanged_witness :
  let x := lit "let a = 1;" in
  strip_html x = x /\ strip_css x = x /\ strip_js x = x /\
  process_file app_js (world_with app_js (Some x)) =
  Returned (false, world_with app_js (Some x)).
Proof.
  intros x.
  destruct (no_markers_unchanged x eq_refl eq_refl eq_refl)
    as [Hh [Hc [Hj Hp]]].
  split; [exact Hh|]. split; [exact Hc|]. split.
  - apply Hj. reflexivity.
  - apply Hp; reflexivity.
Defined.

(** C5, as stated, fails for [strip_js]: a text without any comment
    marker comes out with its carriage-return and newline pairs turned
    into newlines and without its final newline, and the file is written
    and reported as modified. *)
Lemma plain_js_changed :
  (contains plain_crlf_js html_open = false /\
   contains plain_crlf_js block_open = false /\
   contains plain_crlf_js (lit "//") = false /\
   strip_js plain_crlf_js = lit "a = 1;" ++ nl ++ lit "b = 2;" /\
   strip_js plain_crlf_js <> plain_crlf_js) /\
  (contains plain_js html_open = false /\
   contains plain_js block_open = false /\
   contains plain_js (lit "//") = false /\
   strip_js plain_js = lit "let a = 1;" /\
   strip_js plain_js <> plain_js /\
   process_file app_js (world_with app_js (Some plain_js)) <>
   Returned (false, world_with app_js (Some plain_js))).
Proof.
  repeat split; try (vm_compute; reflexivity); try (vm_compute; discriminate).
Qed.

(** C6, as amended: a regular file with a recognized suffix that cannot
    be read as text is skipped without raising: [process_file] returns
    false and leaves the world as it is, so the modified count is not
    incremented, and the loop goes on with the next file.  The touched
    count is incremented all the same, as it is for every regular file
    with a recognized suffix, before the file is read. *)
Theorem unreadable_file_skipped
        (f : Path) (files : list Path) (changed touched : nat) (w : world) :
  is_file w f = true ->
  existsb (str_eqb (lower (suffix f))) exts = true ->
  read_text w f = Raised ->
  process_file f w = Returned (false, w) /\
  main_loop (f :: files) changed touched w =
  main_loop files changed (touched + 1) w.
Proof.
  intros Hf He Hr.
  pose proof (process_file_unreadable f w Hr) as Hp.
  split; [exact Hp|].
  cbn [main_loop]. rewrite Hf, He, Hp. reflexivity.
Qed.

Lemma unreadable_file_skipped_witness :
  is_file (world_with bad_js None) bad_js = true /\
  read_text (world_with bad_js None) bad_js = Raised /\
  main_loop [bad_js; app_js] 0 0 (world_with bad_js None) =
  main_loop [app_js] 0 1 (world_with bad_js None).
Proof.
  split; [reflexivity|]. split; [reflexivity|].
  apply (unreadable_file_skipped bad_js [app_js] 0 0 (world_with bad_js None));
    reflexivity.
Defined.

(** C6, as stated, fails on the touched count: with one unreadable
    [.JS] file the summary reports one touched file, not none. *)
Lemma unreadable_file_touched :
  read_text (world_with bad_js None) bad_js = Raised /\
  main [bad_js] (world_with bad_js None) =
  Returned (print (PrintedSummary 1 0) (world_with bad_js None)) /\
  main [bad_js] (world_with bad_js None) <>
  Returned (print (PrintedSummary 0 0) (world_with bad_js None)).
Proof.
  split; [reflexivity|]. split; [reflexivity|].
  intros H. apply (f_equal (fun o => match o with
                                     | Returned w => log w
                                     | Raised => []
                                     end)) in H.
  vm_compute in H. discriminate H.
Qed.

(** C8: the output of [strip_js] holds no line boundary other than the
    newline, whatever boundaries the input has; and when the lines of
    the input (or of what the removal of block comments leaves of it),
    the last of them not empty, are separated by carriage-return and
    newline pairs, the output is the scanned lines separated by single
    newlines. *)
Theorem strip_js_joins_with_newline (x : str) :
  Forall (fun c => is_linebreak c = true -> c = Ch.LF) (strip_js x) /\
  forall ls,
    Forall no_break ls -> last ls nl <> [] ->
    (re_sub block_open block_close x = join crlf ls ->
     strip_js x = join nl (List.map scan_line ls)) /\
    (x = join crlf ls -> contains x block_open = false ->
     strip_js x = join nl (List.map scan_line ls)).
Proof.
  split; [apply strip_js_breaks|].
  intros ls Hnb Hlast.
  assert (H : re_sub block_open block_close x = join crlf ls ->
              strip_js x = join nl (List.map scan_line ls)).
  { intros E. rewrite strip_js_lines, E.
    now rewrite (splitlines_join crlf splitlines_crlf_then Hnb Hlast). }
  split; [exact H|].
  intros Hx Hb. apply H. rewrite <- Hx.
  apply re_sub_no_open; [apply block_open_nonempty | exact Hb].
Qed.

Lemma strip_js_joins_with_newline_witness :
  strip_js crlf_js =
  lit "a = 1;" ++ nl ++ lit "b = 2; " ++ nl ++ lit "c = 3;".
Proof.
  destruct (strip_js_joins_with_newline crlf_js) as [_ H].
  destruct (H [lit "a = 1;"; lit "b = 2; // two"; lit "c = 3;"]) as [_ H'].
  - repeat constructor.
  - discriminate.
  - rewrite H'; reflexivity.
Defined.

(** C9: [process_file] writes only a text that differs from the one it
    read.  When the stripped text equals the text read, it returns
    false and the world (the disk and the record of writes) is as
    before; whenever it returns true the stripped text differs and is
    what was written; whenever it returns false nothing changed. *)
Theorem process_file_writes_only_changes
        (path : Path) (w : world) (text : str) :
  read_text w path = Returned text ->
  (forall stripped,
      dispatch (lower (suffix path)) text = Some stripped ->
      stripped = text ->
      process_file path w = Returned (false, w)) /\
  (forall w',
      process_file path w = Returned (true, w') ->
      exists stripped,
        dispatch (lower (suffix path)) text = Some stripped /\
        stripped <> text /\
        write_text w path stripped = Returned w') /\
  (forall w', process_file path w = Returned (false, w') -> w' = w).
Proof.
  intros Hr. split; [|split].
  - intros stripped Hd ->. eapply process_file_unchanged; eassumption.
  - intros w' Hp. unfold process_file in Hp. rewrite Hr in Hp.
    destruct (dispatch (lower (suffix path)) text) as [stripped|];
      [|discriminate].
    exists stripped. split; [reflexivity|].
    destruct (str_eqb stripped text) eqn:E; [discriminate|].
    cbn [negb] in Hp. split; [now apply str_eqb_neq|].
    destruct (write_text w path stripped); [|discriminate].
    now injection Hp as <-.
  - intros w' Hp. unfold process_file in Hp. rewrite Hr in Hp.
    destruct (dispatch (lower (suffix path)) text) as [stripped|];
      [|now injection Hp].
    destruct (negb (str_eqb stripped text)); [|now injection Hp].
    destruct (write_text w path stripped); discriminate.
Qed.

Lemma process_file_writes_only_changes_witness :
  read_text (world_with app_js (Some url_line)) app_js = Returned url_line /\
  process_file app_js (world_with app_js (Some url_line)) =
  Returned (false, world_with app_js (Some url_line)).
Proof.
  split; [reflexivity|].
  destruct (process_file_writes_only_changes
              app_js (world_with app_js (Some url_line)) (text := url_line)
              eq_refl) as [H _].
  apply (H url_line); vm_compute; reflexivity.
Defined.

(** C10: for every text that ends with a newline, the output of
    [strip_js] is shorter than the text, hence differs from it, with or
    without comments; a writable [.js] file holding such a text is
    written with the output and reported as modified. *)
Theorem strip_js_drops_final_newline (x : str) :
  length (strip_js (x ++ nl)) < length (x ++ nl) /\
  strip_js (x ++ nl) <> x ++ nl /\
  forall path w,
    lower (suffix path) = lit ".js" ->
    disk w (path_name path) = Some (RegularFile (Some (x ++ nl)) true) ->
    process_file path w =
    Returned (true,
              {| disk := update (disk w) (path_name path)
                                (RegularFile (Some (strip_js (x ++ nl))) true);
                 log := log w ++ [Wrote path (strip_js (x ++ nl))] |}).
Proof.
  pose proof (strip_js_shorter x) as Hlt.
  assert (Hne : strip_js (x ++ nl) <> x ++ nl).
  { intros E. rewrite E in Hlt. lia. }
  split; [exact Hlt|]. split; [exact Hne|].
  intros path w Hs Hd.
  rewrite (process_file_changed path w (text := x ++ nl)
                                (stripped := strip_js (x ++ nl))).
  - unfold write_text. rewrite Hd. reflexivity.
  - unfold read_text. rewrite Hd. reflexivity.
  - rewrite Hs. apply dispatch_js.
  - exact Hne.
Qed.

Lemma strip_js_drops_final_newline_witness :
  process_file app_js (world_with app_js (Some plain_js)) =
  Returned (true,
            {| disk := update (disk (world_with app_js (Some plain_js)))
                              (path_name app_js)
                              (RegularFile (Some (lit "let a = 1;")) true);
               log := [Wrote app_js (lit "let a = 1;")] |}).
Proof.
  destruct (strip_js_drops_final_newline (lit "let a = 1;")) as [_ [_ H]].
  exact (H app_js (world_with app_js (Some plain_js)) eq_refl eq_refl).
Defined.

(** * Further properties of the substitution *)

Lemma startswith_app_long (u v p : str) :
  length p <= length u -> startswith (u ++ v) p = startswith u p.
Proof.
  revert u; induction p as [|x p IH]; intros u H; [reflexivity|].
  destruct u as [|y u]; [simpl in H; lia|].
  cbn [app startswith]. rewrite IH by (simpl in H; lia). reflexivity.
Qed.

Lemma find_after_startswith (p s : str) :
  startswith s p = true -> find_after p s = Some (skipn (length p) s).
Proof. intros H. destruct s; cbn [find_after]; now rewrite H. Qed.

Lemma contains_nil (s : str) : contains s [] = true.
Proof. destruct s; reflexivity. Qed.

(** No occurrence of [p] starts inside [u] when [u] followed by all of
    [p] but its last character does not contain [p]. *)
Lemma no_early_occurrence (c : char) (u p v : str) :
  contains ((c :: u) ++ removelast p) p = false ->
  startswith ((c :: u) ++ p ++ v) p = false.
Proof.
  intros H.
  assert (Hp : p <> []) by (intros ->; now rewrite contains_nil in H).
  apply contains_cons_false in H as [H _].
  rewrite (app_removelast_last Ch.LF Hp) at 1.
  rewrite <- !app_assoc, app_assoc.
  rewrite startswith_app_long; [exact H|].
  rewrite length_app. cbn [length].
  rewrite (app_removelast_last Ch.LF Hp) at 1.
  rewrite length_app. simpl. lia.
Qed.

Lemma find_after_first (p mid b : str) :
  contains (mid ++ removelast p) p = false ->
  find_after p (mid ++ p ++ b) = Some b.
Proof.
  induction mid as [|c mid IH]; intros H.
  - cbn [app]. rewrite find_after_startswith by apply startswith_app.
    rewrite skipn_app, skipn_all, Nat.sub_diag. reflexivity.
  - pose proof (no_early_occurrence _ _ _ b H) as Hs.
    cbn [app find_after] in *. rewrite Hs.
    apply IH. now apply contains_cons_false in H.
Qed.

Lemma has_comment_no_close (op cl s : str) :
  contains s cl = false -> has_comment op cl s = false.
Proof.
  intros H. unfold has_comment.
  destruct (find_after op s) as [rest|] eqn:E; [|reflexivity].
  apply find_after_Some in E as [pre ->].
  apply contains_app_false in H as [_ H].
  now apply contains_app_false in H.
Qed.

Section ReSubMore.
Variables op cl : str.
Hypothesis op_nonempty : op <> [].

(** A text that holds a comment comes out shorter. *)
Lemma re_sub_shortens (s : str) :
  has_comment op cl s = true -> length (re_sub op cl s) < length s.
Proof.
  induction s as [|c t IH]; intros H.
  { unfold has_comment in H. cbn [find_after] in H.
    destruct (startswith [] op) eqn:E; [|discriminate].
    apply startswith_iff in E as [r E]. symmetry in E.
    apply app_eq_nil in E as [E _]. congruence. }
  rewrite (re_sub_cons cl op_nonempty).
  unfold has_comment in H. cbn [find_after] in H.
  destruct (startswith (c :: t) op) eqn:Es.
  - destruct (find_after cl (skipn (length op) (c :: t))) as [rest|] eqn:Ef.
    + pose proof (match_rest_shorter _ op_nonempty _ Ef Es).
      pose proof (re_sub_length cl op_nonempty rest). lia.
    + apply find_after_None in Ef. congruence.
  - specialize (IH H). simpl. lia.
Qed.

Lemma re_sub_fixed_iff (s : str) :
  re_sub op cl s = s <-> has_comment op cl s = false.
Proof.
  split.
  - intros E. destruct (has_comment op cl s) eqn:H; [|reflexivity].
    apply re_sub_shortens in H. rewrite E in H. lia.
  - apply re_sub_no_comment. exact op_nonempty.
Qed.

(** The first comment of a text is removed whole, and nothing else up
    to its end. *)
Lemma re_sub_first_comment (a mid b : str) :
  contains (a ++ removelast op) op = false ->
  contains (mid ++ removelast cl) cl = false ->
  re_sub op cl (a ++ op ++ mid ++ cl ++ b) = a ++ re_sub op cl b.
Proof.
  intros Ha Hm. induction a as [|c a IH].
  - cbn [app].
    remember (op ++ mid ++ cl ++ b) as s eqn:Es.
    assert (Hs : startswith s op = true) by (subst; apply startswith_app).
    assert (Hk : skipn (length op) s = mid ++ cl ++ b).
    { subst. now rewrite skipn_app, skipn_all, Nat.sub_diag. }
    destruct s as [|x s].
    + symmetry in Es. apply app_eq_nil in Es as [E _]. congruence.
    + rewrite (re_sub_cons cl op_nonempty), Hs, Hk, find_after_first
        by assumption.
      reflexivity.
  - pose proof (no_early_occurrence _ _ _ (mid ++ cl ++ b) Ha) as Hs.
    cbn [app] in *. rewrite (re_sub_cons cl op_nonempty), Hs.
    f_equal. apply IH. now apply contains_cons_false in Ha.
Qed.
End ReSubMore.

(** * Further properties of the line scanner *)

Lemma scan_char_break st ch next :
  scan_char st ch next = Break ->
  ch = Ch.slash /\ next = Some Ch.slash /\ no_string st = true.
Proof.
  unfold scan_char.
  repeat match goal with
         | |- context [if ?b then _ else _] => destruct b eqn:?
         end; try discriminate.
  intros _.
  repeat match goal with
         | H : _ && _ = true |- _ => apply andb_true_iff in H as [? ?]
         end.
  destruct next as [d|]; [|discriminate].
  repeat match goal with
         | H : N.eqb _ _ = true |- _ => apply N.eqb_eq in H
         | H : next_is _ _ = true |- _ => cbn [next_is] in H
         end.
  subst. auto.
Qed.

Lemma scan_char_slashes st :
  no_string st = true ->
  scan_char st Ch.slash (Some Ch.slash) =
  if negb (endswith (rstrip (result_chars st)) (lit "http:"))
     && negb (endswith (rstrip (result_chars st)) (lit "https:"))
  then Break else Continue (copy st Ch.slash).
Proof.
  intros Hns. unfold scan_char. rewrite Hns. reflexivity.
Qed.

Lemma scan_char_plain st ch next st' :
  is_quote ch = false ->
  scan_char st ch next = Continue st' ->
  same_strings st st'.
Proof.
  unfold is_quote. rewrite !orb_false_iff. intros [[H1 H2] H3].
  unfold scan_char, same_strings, copy. rewrite H1, H2, H3. cbn [andb].
  repeat match goal with
         | |- context [if ?b then _ else _] => destruct b eqn:?
         end; intros [= <-] || discriminate; cbn; auto.
Qed.

Lemma scan_char_in_string q st ch next :
  is_quote q = true -> in_string_of q st = true -> N.eqb ch q = false ->
  exists st', scan_char st ch next = Continue st' /\
              in_string_of q st' = true.
Proof.
  intros Hq Hin Hne. unfold scan_char, copy, no_string.
  destruct (is_quote_cases _ Hq) as [-> | [-> | ->]];
    cbn in Hin; rewrite Hne, Hin; cbn [andb negb];
      rewrite ?andb_false_r; cbn [andb];
        repeat match goal with
               | |- context [if ?b then _ else _] => destruct b eqn:?
               end;
        eexists; (split; [reflexivity | cbn; reflexivity || exact Hin]).
Qed.

Lemma startswith_slashes (c : char) (u : str) :
  startswith (c :: u) (lit "//") =
  N.eqb c Ch.slash && next_is (hd_error u) Ch.slash.
Proof.
  change (lit "//") with [Ch.slash; Ch.slash].
  destruct u as [|d u]; cbn [startswith hd_error next_is].
  - rewrite !andb_false_r. reflexivity.
  - rewrite andb_true_r. f_equal; apply N.eqb_sym.
Qed.

Lemma contains_snoc_slashes (a : str) (q : char) :
  contains a (lit "//") = false -> N.eqb q Ch.slash = false ->
  contains (a ++ [q]) (lit "//") = false.
Proof.
  intros H Hq. induction a as [|c a IH].
  - cbn [app contains]. rewrite startswith_slashes. cbn [hd_error next_is].
    rewrite andb_false_r. reflexivity.
  - apply contains_cons_false in H as [H1 H2].
    cbn [app contains]. rewrite (IH H2), orb_false_r.
    rewrite startswith_slashes in *.
    destruct a as [|d a]; cbn [app hd_error next_is] in *.
    + rewrite Hq. apply andb_false_r.
    + exact H1.
Qed.

(** Over code without quotes and without [//], the loop copies
    everything and stays outside strings. *)
Lemma scan_loop_code (a tail : str) (st : scan_state) :
  no_string st = true ->
  forallb not_quote a = true ->
  contains (a ++ firstn 1 tail) (lit "//") = false ->
  exists st',
    scan_loop st (a ++ tail) = scan_loop st' tail /\
    no_string st' = true /\
    result_chars st' = result_chars st ++ a /\
    (escaped st = false -> forallb (not_char Ch.backslash) a = true ->
     escaped st' = false).
Proof.
  revert st; induction a as [|c a IH]; intros st Hns Hq Hc.
  - exists st. rewrite app_nil_r. auto.
  - cbn [forallb] in Hq. apply andb_true_iff in Hq as [Hq1 Hq2].
    apply negb_true_iff in Hq1.
    cbn [app] in Hc. apply contains_cons_false in Hc as [Hc1 Hc2].
    rewrite startswith_slashes in Hc1.
    assert (Hhd : hd_error (a ++ firstn 1 tail) = hd_error (a ++ tail))
      by (destruct a, tail; reflexivity).
    rewrite Hhd in Hc1.
    destruct (scan_char_no_slash st c (hd_error (a ++ tail)) Hc1) as [st1 E].
    pose proof (scan_char_plain _ _ _ Hq1 E) as [S1 [S2 S3]].
    assert (Hns1 : no_string st1 = true)
      by (unfold no_string in *; now rewrite S1, S2, S3).
    destruct (IH st1 Hns1 Hq2 Hc2) as [st' [Hl [Hn [Hr He]]]].
    exists st'. cbn [app scan_loop]. rewrite E.
    split; [exact Hl|]. split; [exact Hn|]. split.
    + rewrite Hr, (scan_char_result _ _ _ E), <- app_assoc. reflexivity.
    + intros He0 Hb. cbn [forallb] in Hb.
      apply andb_true_iff in Hb as [Hb1 Hb2].
      apply He; [|exact Hb2].
      rewrite (scan_char_escaped _ _ _ E).
      apply negb_true_iff in Hb1. now rewrite Hb1.
Qed.

(** Inside a string that is never closed, the loop copies everything. *)
Lemma scan_loop_in_string (q : char) (b : str) (st : scan_state) :
  is_quote q = true -> in_string_of q st = true ->
  forallb (not_char q) b = true ->
  result_chars (scan_loop st b) = result_chars st ++ b.
Proof.
  intros Hq. revert st; induction b as [|c b IH]; intros st Hin Hb.
  - simpl. now rewrite app_nil_r.
  - cbn [forallb] in Hb. apply andb_true_iff in Hb as [Hb1 Hb2].
    apply negb_true_iff in Hb1.
    destruct (scan_char_in_string q st c (hd_error b) Hq Hin Hb1)
      as [st' [E Hin']].
    cbn [scan_loop]. rewrite E, (IH st' Hin' Hb2).
    rewrite (scan_char_result _ _ _ E), <- app_assoc. reflexivity.
Qed.

(** What the loop leaves out, if anything, starts with [//]. *)
Lemma scan_loop_cut (rest : str) (st : scan_state) :
  exists k rest',
    rest = k ++ rest' /\
    result_chars (scan_loop st rest) = result_chars st ++ k /\
    (rest' = [] \/ startswith rest' (lit "//") = true).
Proof.
  revert st; induction rest as [|ch tl IH]; intros st.
  - exists [], []. simpl. rewrite app_nil_r. auto.
  - cbn [scan_loop].
    destruct (scan_char st ch (hd_error tl)) as [st'|] eqn:E.
    + destruct (IH st') as [k [rest' [Hk [Hr Hs]]]].
      exists (ch :: k), rest'. split; [now rewrite Hk|]. split; [|exact Hs].
      rewrite Hr, (scan_char_result _ _ _ E), <- app_assoc. reflexivity.
    + exists [], (ch :: tl). rewrite app_nil_r.
      split; [reflexivity|]. split; [reflexivity|]. right.
      apply scan_char_break in E as [-> [Hn _]].
      rewrite startswith_slashes, Hn. reflexivity.
Qed.

(** * Further properties of the walker *)

(** The three ways [process_file] can end. *)
Lemma process_file_cases (path : Path) (w : world) :
  process_file path w = Returned (false, w) \/
  exists text stripped b,
    disk w (path_name path) = Some (RegularFile (Some text) b) /\
    dispatch (lower (suffix path)) text = Some stripped /\
    stripped <> text /\
    process_file path w =
    if b then
      Returned (true,
                {| disk := update (disk w) (path_name path)
                                  (RegularFile (Some stripped) true);
                   log := log w ++ [Wrote path stripped] |})
    else Raised.
Proof.
  unfold process_file, read_text, write_text.
  destruct (disk w (path_name path)) as [[|[text|] b]|] eqn:Ed; auto.
  destruct (dispatch (lower (suffix path)) text) as [stripped|] eqn:Es; auto.
  destruct (str_eqb stripped text) eqn:E; auto.
  right. exists text, stripped, b. apply str_eqb_neq in E.
  repeat split; auto. destruct b; reflexivity.
Qed.

Lemma process_file_shape (path : Path) (w w' : world) (ok : bool) :
  process_file path w = Returned (ok, w') ->
  forall k, shape (disk w' k) = shape (disk w k).
Proof.
  intros H k.
  destruct (process_file_cases path w)
    as [E | [text [stripped [b [Hd [_ [_ E]]]]]]]; rewrite E in H.
  - now injection H as <- <-.
  - destruct b; [|discriminate]. injection H as <- <-. cbn [disk].
    unfold update. destruct (str_eqb k (path_name path)) eqn:Ek;
      [|reflexivity].
    apply str_eqb_eq in Ek. subst k. now rewrite Hd.
Qed.

Lemma recognized_shape (w w' : world) (f : Path) :
  (forall k, shape (disk w' k) = shape (disk w k)) ->
  recognized w' f = recognized w f.
Proof.
  intros H. unfold recognized, is_file. specialize (H (path_name f)).
  destruct (disk w' (path_name f)) as [[|? ?]|],
           (disk w (path_name f)) as [[|? ?]|]; try discriminate; reflexivity.
Qed.

Lemma dispatch_unrecognized (sfx text : str) :
  existsb (str_eqb sfx) exts = false -> dispatch sfx text = None.
Proof.
  unfold exts. cbn [existsb]. rewrite !orb_false_iff.
  intros [H1 [H2 [H3 [H4 _]]]]. unfold dispatch.
  now rewrite H1, H2, H3, H4.
Qed.

(** What the loop of [main] does to the counters, the disk and the
    log. *)
Lemma main_loop_effects (files : list Path) :
  forall changed touched w changed' touched' w',
    main_loop files changed touched w = Returned (changed', touched', w') ->
    touched' = touched + length (filter (recognized w) files) /\
    changed <= changed' /\
    changed' - changed <= touched' - touched /\
    (forall k, shape (disk w' k) = shape (disk w k)) /\
    exists evs,
      log w' = log w ++ evs /\
      length (filter is_wrote evs) = changed' - changed /\
      length (filter is_stripped evs) = changed' - changed /\
      filter is_summary evs = [].
Proof.
  induction files as [|f files IH]; intros c t w c' t' w' H.
  - injection H as <- <- <-. cbn [filter length].
    split; [lia|]. split; [lia|]. split; [lia|]. split; [reflexivity|].
    exists []. rewrite app_nil_r, Nat.sub_diag. auto.
  - cbn [main_loop] in H. fold (recognized w f) in H. cbn [filter].
    destruct (recognized w f) eqn:Er.
    + destruct (process_file f w) as [[ok w1]|] eqn:Ep; [|discriminate].
      pose proof (process_file_shape _ _ Ep) as Hsh.
      destruct (process_file_cases f w)
        as [E | [text [stripped [b [Hd [_ [_ E]]]]]]]; rewrite E in Ep.
      * injection Ep as <- <-.
        destruct (IH _ _ _ _ _ _ H) as [Ht [Hc [Hd [Hs He]]]].
        cbn [length].
        split; [lia|]. split; [lia|]. split; [lia|]. split; assumption.
      * destruct b; [|discriminate]. injection Ep as <- <-.
        destruct (IH _ _ _ _ _ _ H)
          as [Ht [Hc [Hd' [Hs [evs [Hl [Hw [Hp Hm]]]]]]]].
        rewrite (filter_ext _ _ (fun p => recognized_shape _ _ p Hsh)) in Ht.
        cbn [length].
        split; [lia|]. split; [lia|]. split; [lia|]. split.
        -- intros k. rewrite Hs. apply Hsh.
        -- exists (Wrote f stripped :: PrintedStripped f :: evs).
           cbn [print log disk] in Hl. rewrite Hl, <- !app_assoc.
           cbn [filter is_wrote is_stripped is_summary length app].
           rewrite Hw, Hp, Hm.
           split; [reflexivity|]. split; [lia|]. split; [lia|reflexivity].
    + destruct (IH _ _ _ _ _ _ H) as [Ht [Hc [Hd [Hs He]]]].
      split; [lia|]. split; [lia|]. split; [lia|]. split; assumption.
Qed.

(** * Further properties, stated *)

(** X1: no stripper returns a text longer than its input. *)
Theorem strippers_never_lengthen (x : str) :
  length (strip_html x) <= length x /\
  length (strip_css x) <= length x /\
  length (strip_js x) <= length x.
Proof.
  split; [apply re_sub_length, html_open_nonempty|].
  split; [apply re_sub_length, block_open_nonempty|].
  rewrite strip_js_lines, join_length by reflexivity.
  pose proof (re_sub_length block_close block_open_nonempty x).
  pose proof (total_splitlines (re_sub block_open block_close x)).
  pose proof (total_map scan_line
                (splitlines (re_sub block_open block_close x))
                scan_line_length).
  destruct (ends_with_break (re_sub block_open block_close x)); lia.
Qed.

(** X2: [strip_html] and [strip_css] return a text unchanged exactly
    when it holds no comment, that is no opening delimiter with a
    closing delimiter after it. *)
Theorem comment_free_fixed_points (x : str) :
  (strip_html x = x <-> has_comment html_open html_close x = false) /\
  (strip_css x = x <-> has_comment block_open block_close x = false).
Proof.
  split; apply re_sub_fixed_iff;
    [apply html_open_nonempty | apply block_open_nonempty].
Qed.

Lemma comment_free_fixed_points_witness :
  strip_css (lit "a{} /* open") = lit "a{} /* open" /\
  has_comment html_open html_close (lit "<p>x</p><!-- h -->") = true.
Proof.
  split.
  - destruct (comment_free_fixed_points (lit "a{} /* open")) as [_ [_ H]].
    apply H. vm_compute. reflexivity.
  - vm_compute. reflexivity.
Defined.

(** X3: a text without the closing delimiter is returned unchanged,
    opening delimiters or not: a comment that is never closed stays. *)
Theorem unterminated_comment_kept (x : str) :
  (contains x html_close = false -> strip_html x = x) /\
  (contains x block_close = false -> strip_css x = x).
Proof.
  split; intros H.
  - apply re_sub_no_comment; [apply html_open_nonempty|].
    now apply has_comment_no_close.
  - apply re_sub_no_comment; [apply block_open_nonempty|].
    now apply has_comment_no_close.
Qed.

Lemma unterminated_comment_kept_witness :
  strip_html (lit "<p>x</p><!-- open") = lit "<p>x</p><!-- open".
Proof.
  destruct (unterminated_comment_kept (lit "<p>x</p><!-- open")) as [H _].
  apply H. vm_compute. reflexivity.
Defined.

(** X4: when the first opening delimiter of a text is at the end of
    [a] and the first closing delimiter after it is at the end of
    [mid], the stripper returns [a] followed by the stripped rest: the
    comment goes from the first opening delimiter to the nearest closing
    one, and the text before it is kept as it is. *)
Theorem first_comment_removed (a mid b : str) :
  (contains (a ++ removelast html_open) html_open = false ->
   contains (mid ++ removelast html_close) html_close = false ->
   strip_html (a ++ html_open ++ mid ++ html_close ++ b) =
   a ++ strip_html b) /\
  (contains (a ++ removelast block_open) block_open = false ->
   contains (mid ++ removelast block_close) block_close = false ->
   strip_css (a ++ block_open ++ mid ++ block_close ++ b) =
   a ++ strip_css b).
Proof.
  split; intros Ha Hm.
  - apply re_sub_first_comment; [apply html_open_nonempty | |]; assumption.
  - apply re_sub_first_comment; [apply block_open_nonempty | |]; assumption.
Qed.

Lemma first_comment_removed_witness :
  strip_css (lit "a{}" ++ block_open ++ lit " c1 " ++ block_close
                 ++ lit "b{} */") =
  lit "a{}" ++ strip_css (lit "b{} */").
Proof.
  destruct (first_comment_removed (lit "a{}") (lit " c1 ") (lit "b{} */"))
    as [_ H].
  apply H; vm_compute; reflexivity.
Defined.

(** X5: [scan_line] returns a prefix of the line, and what it leaves
    out, if anything, starts with [//]. *)
Theorem scan_line_cuts_at_comment (line : str) :
  exists rest,
    line = scan_line line ++ rest /\
    (rest = [] \/ startswith rest (lit "//") = true).
Proof.
  destruct (scan_loop_cut line init_state) as [k [rest [Hk [Hr Hs]]]].
  exists rest. unfold scan_line. rewrite Hr. split; assumption.
Qed.

(** X6: scanning a scanned line returns it whole. *)
Theorem scan_line_twice (line : str) :
  scan_line (scan_line line) = scan_line line.
Proof. apply scan_line_idempotent. Qed.

(** X7: a [//] that follows code without quote characters and without
    an earlier [//], where the code with trailing whitespace removed
    does not end with [http:] or [https:], is removed with the rest of
    the line, whatever that rest is. *)
Theorem trailing_comment_removed (a b : str) :
  forallb not_quote a = true ->
  contains (a ++ [Ch.slash]) (lit "//") = false ->
  endswith (rstrip a) (lit "http:") = false ->
  endswith (rstrip a) (lit "https:") = false ->
  scan_line (a ++ lit "//" ++ b) = a.
Proof.
  intros Hq Hc H1 H2. unfold scan_line.
  destruct (scan_loop_code a (lit "//" ++ b) init_state eq_refl Hq Hc)
    as [st [Hl [Hn [Hr _]]]].
  rewrite Hl. change (lit "//" ++ b) with (Ch.slash :: Ch.slash :: b).
  cbn [init_state result_chars app] in Hr.
  cbn [scan_loop hd_error]. rewrite (scan_char_slashes _ Hn), Hr, H1, H2.
  exact Hr.
Qed.

Lemma trailing_comment_removed_witness :
  scan_line (lit "x = a / b; " ++ lit "//" ++ lit " 'note") =
  lit "x = a / b; ".
Proof.
  apply (trailing_comment_removed (lit "x = a / b; ") (lit " 'note"));
    vm_compute; reflexivity.
Defined.

(** X8: a quote or backtick that follows code without quote characters,
    backslashes and [//], and that is not closed on the line, protects
    the rest of the line: the line is copied whole, whatever [//] that
    rest holds. *)
Theorem open_string_protects (q : char) (a b : str) :
  is_quote q = true ->
  forallb not_quote a = true ->
  forallb (not_char Ch.backslash) a = true ->
  contains a (lit "//") = false ->
  forallb (not_char q) b = true ->
  scan_line (a ++ q :: b) = a ++ q :: b.
Proof.
  intros Hq Ha Hb Hc Hn. unfold scan_line.
  assert (Hs : N.eqb q Ch.slash = false)
    by (destruct (is_quote_cases _ Hq) as [-> | [-> | ->]]; reflexivity).
  destruct (scan_loop_code a (q :: b) init_state eq_refl Ha
                           (contains_snoc_slashes a q Hc Hs))
    as [st [Hl [Hns [Hr He]]]].
  specialize (He eq_refl Hb). rewrite Hl. cbn [scan_loop].
  destruct (scan_char_quote_unescaped st q (hd_error b) Hq He)
    as [st' [E [S1 [S2 S3]]]].
  rewrite E.
  assert (Hin : in_string_of q st' = true).
  { unfold no_string in Hns.
    apply andb_true_iff in Hns as [Hns H3].
    apply andb_true_iff in Hns as [H1 H2].
    apply negb_true_iff in H1, H2, H3.
    unfold in_string_of. rewrite S1, S2, S3, H1, H2, H3.
    destruct (is_quote_cases _ Hq) as [-> | [-> | ->]]; reflexivity. }
  rewrite (scan_loop_in_string q b st' Hq Hin Hn).
  rewrite (scan_char_result _ _ _ E), Hr, <- app_assoc. reflexivity.
Qed.

Lemma open_string_protects_witness :
  scan_line (lit "s = " ++ Ch.squote :: lit "it // stays") =
  lit "s = " ++ Ch.squote :: lit "it // stays".
Proof.
  apply (open_string_protects Ch.squote (lit "s = ") (lit "it // stays"));
    vm_compute; reflexivity.
Defined.

(** X9: on lines without line boundaries, the last of them not empty,
    joined by newlines into a text without [/*], [strip_js] works line
    by line: it returns the scanned lines joined by newlines. *)
Theorem strip_js_line_by_line (ls : list str) :
  Forall no_break ls ->
  last ls nl <> [] ->
  contains (join nl ls) block_open = false ->
  strip_js (join nl ls) = join nl (List.map scan_line ls).
Proof.
  intros Hnb Hlast Hb.
  rewrite strip_js_lines, (re_sub_no_open block_close block_open_nonempty _ Hb).
  now rewrite (splitlines_join nl splitlines_nl_then Hnb Hlast).
Qed.

Lemma strip_js_line_by_line_witness :
  strip_js (join nl [lit "a = 1; // one"; lit "b = 2;"]) =
  join nl [lit "a = 1; "; lit "b = 2;"].
Proof.
  apply (strip_js_line_by_line (ls := [lit "a = 1; // one"; lit "b = 2;"])).
  - repeat constructor.
  - discriminate.
  - vm_compute. reflexivity.
Defined.

(** X10: whenever [process_file] returns, no node of the disk has
    appeared, disappeared or changed between directory, file and
    writable file, and the log is as before or has one more entry, a
    write to the given path. *)
Theorem process_file_frame (path : Path) (w w' : world) (ok : bool) :
  process_file path w = Returned (ok, w') ->
  (forall k, shape (disk w' k) = shape (disk w k)) /\
  (log w' = log w \/ exists text, log w' = log w ++ [Wrote path text]).
Proof.
  intros H. split.
  - eapply process_file_shape; eassumption.
  - destruct (process_file_cases path w)
      as [E | [text [stripped [b [_ [_ [_ E]]]]]]]; rewrite E in H.
    + injection H as <- <-. now left.
    + destruct b; [|discriminate]. injection H as <- <-.
      right. now exists stripped.
Qed.

Lemma process_file_frame_witness :
  exists w',
    process_file style_css two_files = Returned (true, w') /\
    shape (disk w' (path_name app_js)) = Some (Some true) /\
    log w' = [Wrote style_css (lit "a{}b{}")].
Proof.
  eexists. split; [vm_compute; reflexivity|].
  split; [|vm_compute; reflexivity].
  destruct (process_file_frame style_css two_files (w' := _) (ok := true)
              ltac:(vm_compute; reflexivity)) as [H _].
  rewrite H. reflexivity.
Defined.

(** X11: on a path whose lower-cased suffix is none of the four
    recognized ones, [process_file] returns false and leaves the world
    as it is, whatever the file holds and whether or not it can be
    read. *)
Theorem process_file_other_suffix (path : Path) (w : world) :
  existsb (str_eqb (lower (suffix path))) exts = false ->
  process_file path w = Returned (false, w).
Proof.
  intros H. unfold process_file.
  destruct (read_text w path) as [text|]; [|reflexivity].
  now rewrite (dispatch_unrecognized _ text H).
Qed.

Lemma process_file_other_suffix_witness :
  process_file notes_txt (world_with notes_txt (Some (lit "a /* b */"))) =
  Returned (false, world_with notes_txt (Some (lit "a /* b */"))).
Proof.
  apply (process_file_other_suffix notes_txt). vm_compute. reflexivity.
Defined.

(** X12: [process_file] raises exactly when the file can be read, has a
    recognized suffix, is changed by its stripper and refuses the
    write. *)
Theorem process_file_raises_iff (path : Path) (w : world) :
  process_file path w = Raised <->
  exists text stripped,
    disk w (path_name path) = Some (RegularFile (Some text) false) /\
    dispatch (lower (suffix path)) text = Some stripped /\
    stripped <> text.
Proof.
  split.
  - intros H.
    destruct (process_file_cases path w)
      as [E | [text [stripped [b [Hd [Hs [Hne E]]]]]]]; rewrite E in H;
      [discriminate|].
    destruct b; [discriminate|]. now exists text, stripped.
  - intros [text [stripped [Hd [Hs Hne]]]].
    unfold process_file, read_text, write_text. rewrite Hd, Hs.
    apply str_eqb_neq in Hne. now rewrite Hne.
Qed.

Lemma process_file_raises_iff_witness :
  process_file style_css (world_readonly style_css (lit "a{}/* c */")) =
  Raised.
Proof.
  apply (process_file_raises_iff style_css
           (world_readonly style_css (lit "a{}/* c */"))).
  exists (lit "a{}/* c */"), (lit "a{}").
  split; [reflexivity|]. split; [vm_compute; reflexivity | discriminate].
Defined.

(** X13: when [main] returns, it has appended to the log some writes
    and [Stripped comments] lines followed by one summary.  The summary
    reports as processed the number of listed paths that are regular
    files with a recognized suffix, and as modified a number that is at
    most the number processed and is both the number of writes and the
    number of [Stripped comments] lines. *)
Theorem main_summary_counts (files : list Path) (w w' : world) :
  main files w = Returned w' ->
  exists changed evs,
    log w' =
    log w ++ evs ++
        [PrintedSummary (length (filter (recognized w) files)) changed] /\
    changed <= length (filter (recognized w) files) /\
    length (filter is_wrote evs) = changed /\
    length (filter is_stripped evs) = changed /\
    filter is_summary evs = [].
Proof.
  unfold main. intros H.
  destruct (main_loop files 0 0 w) as [[[c t] w1]|] eqn:E; [|discriminate].
  injection H as <-.
  destruct (main_loop_effects _ _ _ _ E)
    as [Ht [_ [Hd [_ [evs [Hl [Hw [Hp Hm]]]]]]]].
  exists c, evs. cbn [print log]. rewrite Hl, <- app_assoc.
  cbn [Nat.add] in Ht. subst t.
  split; [reflexivity|]. split; [lia|]. split; [lia|]. split; [lia|].
  exact Hm.
Qed.

Lemma main_summary_counts_witness :
  exists w' changed evs,
    main [style_css; notes_txt; app_js] two_files = Returned w' /\
    log w' = log two_files ++ evs ++ [PrintedSummary 2 changed] /\
    changed <= 2.
Proof.
  eexists.
  destruct (main_summary_counts [style_css; notes_txt; app_js] two_files
              (w' := _) eq_refl)
    as [changed [evs [Hl [Hc _]]]].
  exists changed, evs. split; [reflexivity|]. split; assumption.
Defined.

(** X14: when [main] returns, the disk has the same nodes as before:
    none has appeared or disappeared, and none has changed between
    directory, file and writable file. *)
Theorem main_keeps_nodes (files : list Path) (w w' : world) :
  main files w = Returned w' ->
  forall k, shape (disk w' k) = shape (disk w k).
Proof.
  unfold main. intros H.
  destruct (main_loop files 0 0 w) as [[[c t] w1]|] eqn:E; [|discriminate].
  injection H as <-.
  destruct (main_loop_effects _ _ _ _ E) as [_ [_ [_ [Hs _]]]].
  exact Hs.
Qed.

Lemma main_keeps_nodes_witness :
  exists w',
    main [style_css; app_js] two_files = Returned w' /\
    shape (disk w' (lit "style.css")) = Some (Some true).
Proof.
  eexists. split; [vm_compute; reflexivity|].
  rewrite (main_keeps_nodes [style_css; app_js] two_files (w' := _)
             ltac:(vm_compute; reflexivity)).
  reflexivity.
Defined.


